(** * Neural style transfer: a shallow embedding of [neural_style_transfer.py]

    The development follows the script top-down: the numeric values held by
    tensors, the tensor operations of TensorFlow and NumPy that the script
    calls, the image codec ([load_and_process_image], [deprocess_image]),
    the loss module ([content_cost], [gram_matrix], [style_cost]) and the
    optimisation loop ([train]).

    Numbers.  The script computes in floating point.  Here a tensor element
    is a rational or one of the three IEEE special values, and every
    operation on finite values is the exact operation followed by the
    rounding of a format, or the infinity of its sign when the exact result
    is beyond the range of the format.  The format is a parameter: what is
    proved for every format holds for TensorFlow's float32 (rounding to
    nearest, largest number about 3.4e38), and what needs exact results is
    stated for exact formats only.  Arithmetic on the special values
    follows the IEEE 754 rules. *)

From Stdlib Require Import String.
From Stdlib Require Import QArith Qabs Qround ZArith Arith PeanoNat Bool List Lia.
From Stdlib Require Import Lqa.
From Stdlib Require Qcanon.
Import ListNotations.

Local Open Scope Q_scope.

(** ** Floating-point formats *)

(** A format rounds the exact result of an operation to a value it can
    hold, unless the result is beyond its range: then the operation
    overflows.  The laws of [round] are those of rounding to nearest: it
    respects equality of rationals, holds zero, keeps the order and
    commutes with the change of sign.  Whether a result overflows depends
    on its magnitude only.  The format is wide and fine enough for the
    constants of the script: 256 is one of its numbers, no result up to 256
    in magnitude overflows, and 1/1024 is not rounded to zero.  The
    floating-point formats of TensorFlow are of this kind. *)
Class Rounding : Type := {
  round : Q -> Q;
  overflows : Q -> bool;
  round_compat : forall p q, p == q -> round p == round q;
  round_zero : round 0 == 0;
  round_monotone : forall p q, p <= q -> round p <= round q;
  round_opp : forall q, round (- q) == - round q;
  overflows_compat : forall p q, p == q -> overflows p = overflows q;
  overflows_opp : forall q, overflows (- q) = overflows q;
  overflows_byte : forall q, Qabs q <= 256 -> overflows q = false;
  round_byte : round 256 == 256;
  round_resolves : 0 < round (1 # 1024)
}.

(** A format that holds every result: nothing is rounded and nothing
    overflows. *)
Class Exact (R : Rounding) : Prop := {
  round_exact : forall q, round q == q;
  never_overflows : forall q, overflows q = false
}.

(** The largest number of float32, [(2 - 2^-23) * 2^127]. *)
Definition float32_max : Q := inject_Z (2 ^ 128 - 2 ^ 104).

(** Beyond the range of float32. *)
Definition beyond_float32 (q : Q) : bool := negb (Qle_bool (Qabs q) float32_max).

(** A format with rounding and without a largest number: the multiples of
    1/1024, the nearest one being taken and a tie going away from zero. *)
Definition nearest (q : Q) : Z :=
  if Qle_bool 0 q then Qfloor (q + (1 # 2)) else Qceiling (q - (1 # 2)).

Definition to_grid (q : Q) : Q := inject_Z (nearest (q * 1024)) / 1024.

(** ** Tensor elements *)

Module Num.

Inductive fval : Type :=
| Fin (q : Q)
| PInf
| NInf
| NaN.

Definition of_Z (z : Z) : fval := Fin (z # 1).
Definition of_nat (n : nat) : fval := of_Z (Z.of_nat n).

Definition is_finite (a : fval) : bool :=
  match a with Fin _ => true | _ => false end.

(** Infinity carrying the sign of a comparison with zero; [Eq] is the
    invalid case. *)
Definition signed_inf (c : comparison) : fval :=
  match c with Eq => NaN | Gt => PInf | Lt => NInf end.

Section Arithmetic.

Context {R : Rounding}.

(** The result of an operation with the exact value [q]: the infinity of
    the sign of [q] when it overflows, else [q] rounded, in lowest terms. *)
Definition fin (q : Q) : fval :=
  if overflows q then signed_inf (q ?= 0) else Fin (Qred (round q)).

Definition fneg (a : fval) : fval :=
  match a with
  | Fin q => fin (- q)
  | PInf => NInf
  | NInf => PInf
  | NaN => NaN
  end.

Definition fadd (a b : fval) : fval :=
  match a, b with
  | NaN, _ | _, NaN => NaN
  | Fin p, Fin q => fin (p + q)
  | PInf, NInf | NInf, PInf => NaN
  | PInf, _ | _, PInf => PInf
  | NInf, _ | _, NInf => NInf
  end.

Definition fsub (a b : fval) : fval :=
  match a, b with
  | NaN, _ | _, NaN => NaN
  | Fin p, Fin q => fin (p - q)
  | PInf, PInf | NInf, NInf => NaN
  | PInf, _ | _, NInf => PInf
  | NInf, _ | _, PInf => NInf
  end.

Definition fmul (a b : fval) : fval :=
  match a, b with
  | NaN, _ | _, NaN => NaN
  | Fin p, Fin q => fin (p * q)
  | Fin p, PInf | PInf, Fin p => signed_inf (p ?= 0)
  | Fin p, NInf | NInf, Fin p => signed_inf (CompOpp (p ?= 0))
  | PInf, PInf | NInf, NInf => PInf
  | PInf, NInf | NInf, PInf => NInf
  end.

(** Zero has no sign here: a non-zero finite value divided by zero is the
    infinity of the dividend's sign. *)
Definition fdiv (a b : fval) : fval :=
  match a, b with
  | NaN, _ | _, NaN => NaN
  | Fin p, Fin q =>
      match q ?= 0 with
      | Eq => signed_inf (p ?= 0)
      | _ => fin (p / q)
      end
  | Fin _, _ => Fin 0
  | PInf, Fin q => match q ?= 0 with Lt => NInf | _ => PInf end
  | NInf, Fin q => match q ?= 0 with Lt => PInf | _ => NInf end
  | _, _ => NaN
  end.

(** [tf.square] *)
Definition fsquare (a : fval) : fval := fmul a a.

(** Left-to-right sum, starting from zero. *)
Definition fsum (l : list fval) : fval := fold_left fadd l (Fin 0).

End Arithmetic.

Arguments fin : simpl never.

(** [np.clip(_, lo, hi)] on one element: [minimum(maximum(x, lo), hi)];
    NaN propagates. *)
Definition fclip (lo hi : Q) (a : fval) : fval :=
  match a with
  | NaN => NaN
  | PInf => Fin hi
  | NInf => Fin lo
  | Fin q => if Qlt_le_dec q lo then Fin lo
             else if Qlt_le_dec hi q then Fin hi else Fin q
  end.

(** [.astype('uint8')] on one element: truncation towards zero, then the
    low eight bits.  The cast of NaN is left to the platform by NumPy; it
    yields 0 on the usual ones, and so it does here. *)
Definition to_uint8 (a : fval) : Z :=
  match a with
  | Fin q => Z.modulo (Z.quot (Qnum q) (Zpos (Qden q))) 256
  | _ => 0%Z
  end.

(** A value that is not below zero, as [a >= 0] holds in IEEE arithmetic:
    a number that is at least zero, or plus infinity. *)
Definition nonneg (a : fval) : Prop :=
  match a with
  | Fin q => 0 <= q
  | PInf => True
  | NInf | NaN => False
  end.

(** A value that is not negative: not below zero, or not a number. *)
Definition not_negative (a : fval) : Prop := a = NaN \/ nonneg a.

End Num.
Import Num.

(** ** Exceptions *)

(** The exceptions the modelled statements can raise. *)
Inductive exn : Type :=
| ValueError            (* unpacking or squeezing with the wrong rank *)
| IndexError            (* indexing past the end of an axis *)
| InvalidArgumentError. (* TensorFlow shape checks *)

Inductive result (A : Type) : Type :=
| Returns (a : A)
| Raises (e : exn).
Arguments Returns {A} a.
Arguments Raises {A} e.

Definition bind {A B : Type} (r : result A) (k : A -> result B) : result B :=
  match r with
  | Returns a => k a
  | Raises e => Raises e
  end.

Notation "x <- r ;; k" := (bind r (fun x => k))
  (at level 61, r at next level, right associativity).

(** ** Tensors and arrays *)

(** A dense array: its dimensions and its elements in row-major order.
    The same record stands for a [tf.Tensor] and a float [np.ndarray]. *)
Record Tensor : Type := mkTensor {
  shape : list nat;
  data : list fval
}.

Definition numel (sh : list nat) : nat := fold_right Nat.mul 1%nat sh.

(** The invariant TensorFlow and NumPy maintain. *)
Definition well_formed (t : Tensor) : Prop :=
  length (data t) = numel (shape t).

Definition all_finite (t : Tensor) : Prop :=
  Forall (fun a => is_finite a = true) (data t).

(** Row-major listing of [f i j] for [i < n], [j < m]. *)
Definition tabulate2 {A : Type} (n m : nat) (f : nat -> nat -> A) : list A :=
  flat_map (fun i => map (f i) (seq 0 m)) (seq 0 n).

(** Element [(i, j)] of a matrix with [cols] columns. *)
Definition get2 (cols : nat) (d : list fval) (i j : nat) : fval :=
  nth (i * cols + j) d (Fin 0).

(** Row [i] of a matrix with [cols] columns. *)
Definition row (cols : nat) (d : list fval) (i : nat) : list fval :=
  map (fun j => get2 cols d i j) (seq 0 cols).

Definition shape_eqb (s1 s2 : list nat) : bool :=
  if list_eq_dec Nat.eq_dec s1 s2 then true else false.

Module tf.

Section Ops.

Context {R : Rounding}.

(** [tf.reshape(t, shape=sh)]: same elements, new dimensions. *)
Definition reshape (t : Tensor) (sh : list nat) : result Tensor :=
  if Nat.eqb (numel sh) (length (data t))
  then Returns (mkTensor sh (data t))
  else Raises InvalidArgumentError.

(** [tf.transpose] of a matrix ([perm = [1, 0]], which is also the default
    permutation at rank 2).  Other ranks are outside the model and are
    reported as an error. *)
Definition transpose (t : Tensor) : result Tensor :=
  match shape t with
  | [r; c] =>
      Returns (mkTensor [c; r] (tabulate2 c r (fun j i => get2 c (data t) i j)))
  | _ => Raises InvalidArgumentError
  end.

(** [tf.matmul] of two matrices; each entry is summed left to right.
    Batched products (rank above 2) are outside the model. *)
Definition matmul (a b : Tensor) : result Tensor :=
  match shape a, shape b with
  | [n; k], [k'; m] =>
      if Nat.eqb k k'
      then Returns (mkTensor [n; m]
             (tabulate2 n m (fun i j =>
                fsum (map (fun l => fmul (get2 k (data a) i l)
                                         (get2 m (data b) l j))
                          (seq 0 k)))))
      else Raises InvalidArgumentError
  | _, _ => Raises InvalidArgumentError
  end.

(** [a - b] on tensors of one shape.  TensorFlow also broadcasts some
    unequal shapes; the script never relies on it, and any unequal pair is
    reported as the error TensorFlow gives for incompatible ones. *)
Definition subtract (a b : Tensor) : result Tensor :=
  if shape_eqb (shape a) (shape b)
  then Returns (mkTensor (shape a)
                 (map (fun p => fsub (fst p) (snd p)) (combine (data a) (data b))))
  else Raises InvalidArgumentError.

Definition square (t : Tensor) : Tensor :=
  mkTensor (shape t) (map fsquare (data t)).

(** [tf.reduce_mean] over all elements: the sum divided by the count
    (0/0, that is NaN, on an empty tensor). *)
Definition reduce_mean (t : Tensor) : fval :=
  fdiv (fsum (data t)) (of_nat (length (data t))).

(** [m, n_H, n_W, n_C = t.get_shape().as_list()] *)
Definition get_shape4 (t : Tensor) : result (nat * nat * nat * nat) :=
  match shape t with
  | [m; h; w; c] => Returns (m, h, w, c)
  | _ => Raises ValueError
  end.

End Ops.

End tf.

(** ** Configuration *)

Module CONFIG.
Definition IMAGE_WIDTH : Z := 430.
Definition IMAGE_HEIGHT : Z := 398.
Definition COLOR_CHANNELS : Z := 3.
Definition NOISE_RATIO : Q := 0.6.
(** RGB order *)
Definition MEANS : list Q := [123.68; 116.779; 103.939].
Definition STYLE_IMAGE : string :=
  "/content/drive/My Drive/Colab Notebooks/NST/style.jpg".
Definition CONTENT_IMAGE : string :=
  "/content/drive/My Drive/Colab Notebooks/NST/lotus-1.jpg".
Definition OUTPUT_DIR : string :=
  "/content/drive/My Drive/Colab Notebooks/NST/".
End CONFIG.

(** ** NumPy arrays in memory *)

(** Position along an axis of length [d] of the element at row-major
    offset [k], when one step along the axis spans [inner] elements. *)
Definition axis_pos (inner d k : nat) : nat := ((k / inner) mod d)%nat.

(** Offset of the element that the slice [::-1] along that axis puts at
    offset [k]. *)
Definition mirror (inner d k : nat) : nat :=
  (k - axis_pos inner d k * inner + (d - 1 - axis_pos inner d k) * inner)%nat.

(** Map with the offset of each element. *)
Definition imap (g : nat -> fval -> fval) (l : list fval) : list fval :=
  map (fun p => g (fst p) (snd p)) (combine (seq 0 (length l)) l).

(** Apply [f] to the elements at position [c] of the axis. *)
Definition map_on_axis (inner d c : nat) (f : fval -> fval) (l : list fval)
  : list fval :=
  imap (fun k v => if Nat.eqb (axis_pos inner d k) c then f v else v) l.

(** The elements read through the slice [::-1] along the axis. *)
Definition reverse_axis (inner d : nat) (l : list fval) : list fval :=
  map (fun k => nth (mirror inner d k) l (Fin 0)) (seq 0 (length l)).

(** An array of [uint8]. *)
Record ByteArray : Type := mkByteArray {
  bshape : list nat;
  bytes : list Z
}.

Module np.

(** [np.expand_dims(a, axis=0)] *)
Definition expand_dims (a : Tensor) : Tensor :=
  mkTensor (1%nat :: shape a) (data a).

(** [np.clip(a, lo, hi)] *)
Definition clip (a : Tensor) (lo hi : Q) : Tensor :=
  mkTensor (shape a) (map (fclip lo hi) (data a)).

(** [a.astype('uint8')] *)
Definition astype_uint8 (a : Tensor) : ByteArray :=
  mkByteArray (shape a) (map to_uint8 (data a)).

End np.

(** Arrays are mutable and passed by reference: a heap maps each reference
    to the array it currently holds. *)
Definition ref : Type := nat.
Definition heap : Type := ref -> Tensor.

Definition upd (h : heap) (x : ref) (a : Tensor) : heap :=
  fun y => if Nat.eqb y x then a else h y.

(** A statement that may mutate the heap and may raise; the heap is kept
    as it is at the point of the exception. *)
Definition stmt (A : Type) : Type := heap -> result A * heap.

Definition sret {A : Type} (a : A) : stmt A := fun h => (Returns a, h).

Definition sbind {A B : Type} (s : stmt A) (k : A -> stmt B) : stmt B :=
  fun h =>
    match s h with
    | (Returns a, h') => k a h'
    | (Raises e, h') => (Raises e, h')
    end.

Notation "x <~ s ;; k" := (sbind s (fun x => k))
  (at level 61, s at next level, right associativity).

Definition read (x : ref) : stmt Tensor := fun h => (Returns (h x), h).

Section Codec.

Context {R : Rounding}.

(** [x[:,:,c] += m]: in place, on the third axis. *)
Definition iadd_axis2 (x : ref) (c : nat) (m : Q) : stmt unit :=
  fun h =>
    match shape (h x) with
    | _ :: _ :: d2 :: rest =>
        if Nat.ltb c d2
        then (Returns tt,
              upd h x (mkTensor (shape (h x))
                         (map_on_axis (numel rest) d2 c
                            (fun v => fadd v (fin m)) (data (h x)))))
        else (Raises IndexError, h)
    | _ => (Raises IndexError, h)
    end.

(** [x[:,:,::-1]]: a view, computed here as the array it reads. *)
Definition flip_axis2 (a : Tensor) : result Tensor :=
  match shape a with
  | _ :: _ :: d2 :: rest =>
      Returns (mkTensor (shape a) (reverse_axis (numel rest) d2 (data a)))
  | _ => Raises IndexError
  end.

Definition lift {A : Type} (r : result A) : stmt A := fun h => (r, h).

(** ** Image codec *)

(** A decoded RGB picture as [load_img] returns it: one byte per channel,
    row-major. *)
Record Picture : Type := mkPicture {
  pic_height : nat;
  pic_width : nat;
  pic_bytes : list Z
}.

Definition valid_picture (p : Picture) : Prop :=
  length (pic_bytes p) = (pic_height p * pic_width p * 3)%nat /\
  Forall (fun b => (0 <= b <= 255)%Z) (pic_bytes p).

(** Keras [img_to_array]: a float array of shape (height, width, 3). *)
Definition img_to_array (p : Picture) : Tensor :=
  mkTensor [pic_height p; pic_width p; 3%nat] (map of_Z (pic_bytes p)).

(** Modelled from the spec: [preprocess_input] belongs to Keras and is not
    part of the sources.  The spec describes it as the channel-order
    reversal and channel-mean subtraction the pretrained network was
    trained with: the last axis is reversed (RGB to BGR) and the three
    means are subtracted, blue first. *)
Definition preprocess_input (a : Tensor) : Tensor :=
  let d := last (shape a) 0%nat in
  let bgr := reverse_axis 1 d (data a) in
  let sub c m l := map_on_axis 1 d c (fun v => fsub v (fin m)) l in
  mkTensor (shape a) (sub 2%nat 123.68 (sub 1%nat 116.779 (sub 0%nat 103.939 bgr))).

(** The file system and the decoder behind [load_img]. *)
Definition loader : Type := string -> Picture.

Definition load_and_process_image (load_img : loader) (image_path : string)
  : Tensor :=
  let image := load_img image_path in
  let image := img_to_array image in
  let image := preprocess_input image in
  let image := np.expand_dims image in
  image.

Definition deprocess_image (x : ref) : stmt ByteArray :=
  _ <~ iadd_axis2 x 0 103.939 ;;
  _ <~ iadd_axis2 x 1 116.779 ;;
  _ <~ iadd_axis2 x 2 123.68 ;;
  a <~ read x ;;
  v <~ lift (flip_axis2 a) ;;
  sret (np.astype_uint8 (np.clip v 0 255)).

(** What the three in-place additions of [deprocess_image] do to the
    element at offset [k]. *)
Definition add_means (inner d k : nat) (v : fval) : fval :=
  match axis_pos inner d k with
  | 0%nat => fadd v (fin 103.939)
  | 1%nat => fadd v (fin 116.779)
  | 2%nat => fadd v (fin 123.68)
  | _ => v
  end.

(** The array that [deprocess_image] leaves behind in the place of its
    argument [a]. *)
Definition shifted (a : Tensor) (inner d2 : nat) : Tensor :=
  mkTensor (shape a) (imap (add_means inner d2) (data a)).

(** What the three subtractions of [preprocess_input] do to the element at
    offset [k]. *)
Definition sub_means (inner d k : nat) (v : fval) : fval :=
  match axis_pos inner d k with
  | 0%nat => fsub v (fin 103.939)
  | 1%nat => fsub v (fin 116.779)
  | 2%nat => fsub v (fin 123.68)
  | _ => v
  end.

(** The byte that comes back for the byte [z] at offset [k] of a picture:
    the mean of its channel subtracted and added again, the sum clipped and
    cut to an integer.  The picture being stored as RGB and the means being
    applied to BGR, the channel is read off the mirrored offset. *)
Definition restored_byte (k : nat) (z : Z) : Z :=
  let k' := mirror 1 3 k in
  to_uint8 (fclip 0 255 (add_means 1 3 k' (sub_means 1 3 k' (of_Z z)))).

Definition restored_bytes (bs : list Z) : list Z :=
  map (fun p => restored_byte (fst p) (snd p)) (combine (seq 0 (length bs)) bs).

(** [display_image]: the value is the picture handed to [plt.imshow].  The
    squeezed array is a view: it has its own shape and shares the elements,
    so what [deprocess_image] writes lands in the caller's array. *)
Definition display_image (image : ref) : stmt ByteArray :=
  fun h =>
    let a := h image in
    match shape a with
    | [d0; d1; d2; d3] =>
        if Nat.eqb d0 1
        then
          let (r, h') := deprocess_image image (upd h image (mkTensor [d1; d2; d3] (data a))) in
          (r, upd h' image (mkTensor (shape a) (data (h' image))))
        else (Raises ValueError, h)
    | _ => deprocess_image image h
    end.

End Codec.

(** ** The frozen network and the optimiser *)

(** The layers of VGG19 the script reads. *)
Inductive layer : Type :=
| block1_conv1 | block2_conv1 | block3_conv1 | block4_conv1 | block5_conv1
| block5_conv2.

(** What the script takes from TensorFlow: the pretrained network (the
    output of a named layer on an input picture), reverse-mode
    differentiation of a recorded computation, and the Adam optimiser with
    its slot variables. *)
Record Backend : Type := mkBackend {
  layer_output : layer -> Tensor -> Tensor;
  tape_gradient : (Tensor -> result fval) -> Tensor -> Tensor;
  Adam : Type;
  new_Adam : fval -> Adam;
  apply_gradients : Adam -> Tensor -> Tensor -> Adam * Tensor
}.

(** ** Loss module *)

Section LossModule.

Context {R : Rounding}.

Definition content_layer : layer := block5_conv2.

Definition style_layers : list layer :=
  [block1_conv1; block2_conv1; block3_conv1; block4_conv1; block5_conv1].

Definition style_coeff : list Q := [0.5; 0.6; 0.8; 0.8; 0.5].

(** [0.05 * tf.reduce_mean(tf.square(a_C - a_G))] *)
Definition content_cost_of (a_C a_G : Tensor) : result fval :=
  d <- tf.subtract a_C a_G ;;
  Returns (fmul (fin 0.05) (tf.reduce_mean (tf.square d))).

Definition gram_matrix (A : Tensor) : result Tensor :=
  At <- tf.transpose A ;;
  tf.matmul A At.

(** [np.square] of a Python integer. *)
Definition np_square (n : nat) : fval := of_nat (n * n).

(** [1/4*1/np.square(n_C)*1/np.square(n_H*n_W)], evaluated left to right. *)
Definition style_scale (n_H n_W n_C : nat) : fval :=
  fdiv (fmul (fdiv (fmul (fdiv (Fin 1) (Fin 4)) (Fin 1)) (np_square n_C)) (Fin 1))
       (np_square (n_H * n_W)).

(** The body of the loop of [style_cost], up to [current_style_cost]. *)
Definition current_style_cost (a_S a_G : Tensor) : result fval :=
  dims <- tf.get_shape4 a_G ;;
  let '(m, n_H, n_W, n_C) := dims in
  r_S <- tf.reshape a_S [(n_H * n_W)%nat; n_C] ;;
  a_S_unrolled <- tf.transpose r_S ;;
  r_G <- tf.reshape a_G [(n_H * n_W)%nat; n_C] ;;
  a_G_unrolled <- tf.transpose r_G ;;
  GMS <- gram_matrix a_S_unrolled ;;
  GMG <- gram_matrix a_G_unrolled ;;
  d <- tf.subtract GMS GMG ;;
  Returns (fmul (style_scale n_H n_W n_C) (tf.reduce_mean (tf.square d))).

(** [style_coeff[i]] *)
Definition coeff_at (i : nat) : result Q :=
  match nth_error style_coeff i with
  | Some w => Returns w
  | None => Raises IndexError
  end.

(** One round of the loop of [style_cost] on the activations of the
    [i]-th style model. *)
Definition style_round (total : fval) (i : nat) (a_S a_G : Tensor) : result fval :=
  cur <- current_style_cost a_S a_G ;;
  w <- coeff_at i ;;
  Returns (fadd total (fmul (fin w) cur)).

(** The loop of [style_cost] over [enumerate] of the activation pairs. *)
Fixpoint style_loop (total : fval) (i : nat) (acts : list (Tensor * Tensor))
  : result fval :=
  match acts with
  | [] => Returns total
  | (a_S, a_G) :: rest =>
      total' <- style_round total i a_S a_G ;;
      style_loop total' (S i) rest
  end.

Section Losses.

Variable B : Backend.

Definition content_model : Tensor -> Tensor := layer_output B content_layer.

Definition style_models : list (Tensor -> Tensor) :=
  map (layer_output B) style_layers.

Definition content_cost (content_image generated_image : Tensor) : result fval :=
  let a_C := content_model content_image in
  let a_G := content_model generated_image in
  content_cost_of a_C a_G.

Definition style_cost (style_image generated_image : Tensor) : result fval :=
  style_loop (Fin 0) 0
    (map (fun style_model => (style_model style_image, style_model generated_image))
         style_models).

End Losses.

End LossModule.

(** ** Optimisation loop *)

(** What the loop shows on the way: the picture given to [plt.imshow] and
    the arguments of the progress line. *)
Inductive event : Type :=
| Shown (img : ByteArray)
| Printed (iteration : Z) (Iterations : Z) (J_total J_style J_content : fval).

Section Train.

Context {R : Rounding}.
Variable B : Backend.
Variable load_img : loader.

(** The variables of [train] that change in the loop. *)
Record loop_state : Type := mkLoop {
  generated_image : Tensor;
  optimizer : Adam B;
  generated_images : list Tensor;
  costs : list fval;
  output : list event
}.

Section Run.

Variables (content_image_preprocessed style_image_preprocessed : Tensor).
Variables (alpha beta : fval) (Iterations : Z).

(** The computation recorded on the tape. *)
Definition J_total_of (g : Tensor) : result (fval * fval * fval) :=
  J_content <- content_cost B content_image_preprocessed g ;;
  J_style <- style_cost B style_image_preprocessed g ;;
  Returns (fadd (fmul alpha J_content) (fmul beta J_style), J_style, J_content).

Definition objective (g : Tensor) : result fval :=
  r <- J_total_of g ;; Returns (fst (fst r)).

(** [display_image(generated_image.numpy())]: [numpy()] hands out a fresh
    copy, so the in-place additions of [deprocess_image] are not seen by
    the loop. *)
Definition display_copy (g : Tensor) : result ByteArray :=
  fst (display_image 0%nat (fun _ => g)).

(** The body of the loop at iteration [i]. *)
Definition train_step (i : nat) (st : loop_state) : result loop_state :=
  r <- J_total_of (generated_image st) ;;
  let '(J_total, J_style, J_content) := r in
  let grads := tape_gradient B objective (generated_image st) in
  let (opt', g') := apply_gradients B (optimizer st) grads (generated_image st) in
  let costs' := costs st ++ [J_total] in
  if Nat.eqb (i mod 200) 0
  then
    img <- display_copy g' ;;
    Returns (mkLoop g' opt' (generated_images st ++ [g']) costs'
               (output st ++ [Shown img;
                              Printed (Z.of_nat i + 1) Iterations
                                      J_total J_style J_content]))
  else Returns (mkLoop g' opt' (generated_images st) costs' (output st)).

Fixpoint train_loop (range : list nat) (st : loop_state) : result loop_state :=
  match range with
  | [] => Returns st
  | i :: rest => st' <- train_step i st ;; train_loop rest st'
  end.

End Run.

(** The state on entry to the loop. *)
Definition train_init (lr : fval) : loop_state :=
  let content_image_preprocessed :=
    load_and_process_image load_img CONFIG.CONTENT_IMAGE in
  mkLoop content_image_preprocessed (new_Adam B lr) [] [] [].

(** The state after the first [n] iterations of a run. *)
Definition train_state_after (alpha beta : fval) (Iterations : Z) (lr : fval)
  (n : nat) : result loop_state :=
  let content_image_preprocessed :=
    load_and_process_image load_img CONFIG.CONTENT_IMAGE in
  let style_image_preprocessed :=
    load_and_process_image load_img CONFIG.STYLE_IMAGE in
  train_loop content_image_preprocessed style_image_preprocessed
    alpha beta Iterations (seq 0 n) (train_init lr).

(** [range(Iterations)] is empty for a negative count. *)
Definition train {A1 A2 : Type} (content_image : A1) (style_image : A2)
  (alpha beta : fval) (Iterations : Z) (lr : fval)
  : result (list Tensor * list fval) :=
  st <- train_state_after alpha beta Iterations lr (Z.to_nat Iterations) ;;
  Returns (generated_images st, costs st).

End Train.

(** The defaults of [train]. *)
Definition default_alpha : fval := Fin 10.
Definition default_beta : fval := Fin 40.
Definition default_Iterations : Z := 2000.
Definition default_lr : fval := Fin 5.

(** ** The loss module in the words of the specification *)

Module Spec.

Section Formulas.

Context {R : Rounding}.

(** Inner product of two rows. *)
Definition dot (u v : list fval) : fval :=
  fsum (map (fun p => fmul (fst p) (snd p)) (combine u v)).

(** The activation map as a matrix with one row per channel and one column
    per spatial position: entry [(c, p)] is the activation of channel [c]
    at position [p]. *)
Definition channel_rows (a : Tensor) (channels positions : nat) : list (list fval) :=
  map (fun c => map (fun p => nth (p * channels + c) (data a) (Fin 0))
                    (seq 0 positions))
      (seq 0 channels).

(** The rows of a stored matrix. *)
Definition rows_of (r c : nat) (d : list fval) : list (list fval) :=
  map (row c d) (seq 0 r).

(** [M] times its transpose: entry [(i, j)] is the inner product of rows
    [i] and [j]. *)
Definition times_transpose (M : list (list fval)) : list (list fval) :=
  map (fun ri => map (fun rj => dot ri rj) M) M.

(** Mean of the squared elementwise differences of two lists. *)
Definition mean_squared_difference (x y : list fval) : fval :=
  fdiv (fsum (map (fun p => fsquare (fsub (fst p) (snd p))) (combine x y)))
       (of_nat (length (combine x y))).

(** [1/(4 * channels^2 * positions^2)] *)
Definition normaliser (channels positions : nat) : fval :=
  fdiv (Fin 1)
       (of_nat (4 * (channels * channels) * (positions * positions))).

Definition layer_style_loss (w : Q) (channels positions : nat) (a_S a_G : Tensor)
  : fval :=
  let GS := times_transpose (channel_rows a_S channels positions) in
  let GG := times_transpose (channel_rows a_G channels positions) in
  fmul (fin w)
       (fmul (normaliser channels positions)
             (mean_squared_difference (concat GS) (concat GG))).

(** Sum over the layers, in order. *)
Definition style_loss (layers : list (Q * (nat * nat) * (Tensor * Tensor))) : fval :=
  fsum (map (fun l => let '(w, (c, p), (a_S, a_G)) := l in
                      layer_style_loss w c p a_S a_G) layers).

Definition content_loss (a_C a_G : Tensor) : fval :=
  fmul (fin 0.05) (mean_squared_difference (data a_C) (data a_G)).

End Formulas.

End Spec.

(** ** The value of the style cost *)

Section StyleValue.

Context {R : Rounding}.

(** The Gram matrix of an activation map, row by row. *)
Definition gram_of (a : Tensor) (channels positions : nat) : list fval :=
  concat (Spec.times_transpose (Spec.channel_rows a channels positions)).

(** The share of one layer in the style cost, for a given constant. *)
Definition layer_cost (scale : fval) (w : Q) (channels positions : nat)
  (a_S a_G : Tensor) : fval :=
  fmul (fin w)
       (fmul scale
             (Spec.mean_squared_difference (gram_of a_S channels positions)
                                           (gram_of a_G channels positions))).

(** No entry of the Gram matrix of the activation map has overflowed. *)
Definition gram_in_range (a : Tensor) (dims : nat * nat * nat) : Prop :=
  let '(h, w, c) := dims in
  Forall (fun x => is_finite x = true) (gram_of a c (h * w)).

(** The constant of [style_cost] for maps of these dimensions is a number
    above zero: it has not been rounded to zero. *)
Definition scale_resolved (dims : nat * nat * nat) : Prop :=
  let '(h, w, c) := dims in exists r, style_scale h w c = Fin r /\ 0 < r.

End StyleValue.

(** ** Shapes of activation maps *)

(** The activation map [a] has batch size 1, height [h], width [w] and [c]
    channels. *)
Definition activation_map (a : Tensor) (dims : nat * nat * nat) : Prop :=
  let '(h, w, c) := dims in
  shape a = [1%nat; h; w; c] /\ well_formed a.

Definition positive_dims (dims : nat * nat * nat) : Prop :=
  let '(h, w, c) := dims in (0 < h * w)%nat /\ (0 < c)%nat.

(** The layers of the specification's style loss for two pictures: the
    weight, the channel and position counts and the two activation maps of
    every style layer. *)
Definition style_inputs (B : Backend) (dims : layer -> nat * nat * nat)
  (style_image generated_image : Tensor)
  : list (Q * (nat * nat) * (Tensor * Tensor)) :=
  map (fun lw => let '(h, w, c) := dims (fst lw) in
                 (snd lw, (c, (h * w)%nat),
                  (layer_output B (fst lw) style_image,
                   layer_output B (fst lw) generated_image)))
      (combine style_layers style_coeff).

(** The shares of the five layers in [style_cost], with the constant as
    the script computes it. *)
Definition style_cost_terms {R : Rounding} (B : Backend)
  (dims : layer -> nat * nat * nat) (style_image generated_image : Tensor)
  : list fval :=
  map (fun lw => let '(h, w, c) := dims (fst lw) in
                 layer_cost (style_scale h w c) (snd lw) c (h * w)
                            (layer_output B (fst lw) style_image)
                            (layer_output B (fst lw) generated_image))
      (combine style_layers style_coeff).

(** ** Runs of the optimiser *)

(** Every layer of the network yields activation maps of one fixed shape,
    as it does on pictures of one size. *)
Definition fixed_feature_shapes (B : Backend) (dims : layer -> nat * nat * nat)
  : Prop :=
  forall l x, activation_map (layer_output B l x) (dims l).

(** The optimiser updates the variable elementwise. *)
Definition optimizer_keeps_shape (B : Backend) : Prop :=
  forall o grads var, shape (snd (apply_gradients B o grads var)) = shape var.

(** The optimiser leaves the variable non-finite when the gradient of the
    recorded computation, or the variable itself, was not finite.  Adam is
    of this kind: the update of an element is computed from the gradient
    of that element and subtracted from it. *)
Definition update_spreads_non_finite (B : Backend) : Prop :=
  forall o f var,
    ~ all_finite (tape_gradient B f var) \/ ~ all_finite var ->
    ~ all_finite (snd (apply_gradients B o (tape_gradient B f var) var)).

(** The network yields content activations that are not finite on a
    picture that is not finite. *)
Definition network_spreads_non_finite (B : Backend) : Prop :=
  forall x, ~ all_finite x -> ~ all_finite (layer_output B content_layer x).

Definition checkpoint_interval : nat := 200.

(** [ceil(n / d)] *)
Definition ceil_div (n d : nat) : nat := ((n + (d - 1)) / d)%nat.

(** The values iteration [i] of a run computes: the index and the three
    losses, as the progress line names them. *)
Definition loss_record {R : Rounding} (B : Backend) (load_img : loader)
  (alpha beta : fval) (Iterations : Z) (lr : fval) (i : nat)
  : result (Z * fval * fval * fval) :=
  st <- train_state_after B load_img alpha beta Iterations lr i ;;
  r <- J_total_of B (load_and_process_image load_img CONFIG.CONTENT_IMAGE)
                    (load_and_process_image load_img CONFIG.STYLE_IMAGE)
                    alpha beta (generated_image B st) ;;
  let '(J_total, J_style, J_content) := r in
  Returns (Z.of_nat i, J_total, J_style, J_content).

(** The second component of what a call returns. *)
Definition snd_of {A B : Type} (r : result (A * B)) : result B :=
  p <- r ;; Returns (snd p).

(** The gradient iteration [i] of a run computes. *)
Definition gradient_at {R : Rounding} (B : Backend) (load_img : loader)
  (alpha beta : fval) (Iterations : Z) (lr : fval) (i : nat) : result Tensor :=
  st <- train_state_after B load_img alpha beta Iterations lr i ;;
  Returns (tape_gradient B
             (objective B (load_and_process_image load_img CONFIG.CONTENT_IMAGE)
                          (load_and_process_image load_img CONFIG.STYLE_IMAGE)
                          alpha beta)
             (generated_image B st)).

(** Two states of the loop that hold the same variables and differ at most
    in what has been shown. *)
Definition same_variables {B : Backend} (st1 st2 : loop_state B) : Prop :=
  generated_image B st1 = generated_image B st2 /\
  optimizer B st1 = optimizer B st2 /\
  generated_images B st1 = generated_images B st2 /\
  costs B st1 = costs B st2.

(** The outcomes of two runs agree up to what has been shown. *)
Definition same_outcome {B : Backend} (r1 r2 : result (loop_state B)) : Prop :=
  match r1, r2 with
  | Returns st1, Returns st2 => same_variables st1 st2
  | Raises e1, Raises e2 => e1 = e2
  | _, _ => False
  end.

(** ** Small backends to run the script on *)

Module Toy.

(** Two pictures of one pixel. *)
Definition one_pixel : Picture := mkPicture 1 1 [10; 20; 30]%Z.
Definition style_pixel : Picture := mkPicture 1 1 [200; 100; 50]%Z.

Definition files : loader :=
  fun path => if String.eqb path CONFIG.STYLE_IMAGE then style_pixel else one_pixel.

(** Three features per layer: the first three elements of the input. *)
Definition features (l : layer) (x : Tensor) : Tensor :=
  mkTensor [1; 1; 1; 3]%nat (map (fun k => nth k (data x) (Fin 0)) (seq 0 3)).

Definition fill (v : fval) (x : Tensor) : Tensor :=
  mkTensor (shape x) (map (fun _ => v) (data x)).

Section Backends.

Context {R : Rounding}.

(** Plain gradient descent in the place of Adam: [var - lr * grad]. *)
Definition descend (lr : fval) (grads var : Tensor) : fval * Tensor :=
  (lr, mkTensor (shape var)
         (map (fun p => fsub (snd p) (fmul lr (fst p)))
              (combine (data grads) (data var)))).

(** A backend whose gradient is zero everywhere. *)
Definition flat : Backend :=
  mkBackend features (fun _ g => fill (Fin 0) g)
            fval (fun lr => lr) descend.

(** A backend whose gradient computation yields NaN. *)
Definition diverging : Backend :=
  mkBackend features (fun _ g => fill NaN g)
            fval (fun lr => lr) descend.

(** Three features per layer, each the sum of the whole input. *)
Definition pooled (l : layer) (x : Tensor) : Tensor :=
  mkTensor [1; 1; 1; 3]%nat (map (fun _ => fsum (data x)) (seq 0 3)).

(** A backend whose gradient computation yields NaN, on a network that
    looks at the whole picture. *)
Definition poisoning : Backend :=
  mkBackend pooled (fun _ g => fill NaN g)
            fval (fun lr => lr) descend.

(** A backend whose layers hand back their input, so that activation maps
    are as large as the pictures. *)
Definition transparent : Backend :=
  mkBackend (fun _ x => x) (fun _ g => fill (Fin 0) g)
            fval (fun lr => lr) descend.

End Backends.

(** A second file system for [flat]: other pictures everywhere but at the
    two configured paths. *)
Definition other_files : loader :=
  fun path =>
    if String.eqb path CONFIG.CONTENT_IMAGE then one_pixel
    else if String.eqb path CONFIG.STYLE_IMAGE then style_pixel
    else mkPicture 1 1 [0; 0; 0]%Z.

(** A third one, whose style picture is wider than the content picture. *)
Definition wide_style : Picture := mkPicture 1 2 [200; 100; 50; 20; 10; 5]%Z.

Definition unequal_files : loader :=
  fun path => if String.eqb path CONFIG.STYLE_IMAGE then wide_style else one_pixel.

End Toy.

(** ** Exact arithmetic *)

(** The format that rounds nothing and has no largest number. *)
Definition exact_arithmetic : Rounding := {|
  round := fun q => q;
  overflows := fun _ => false;
  round_compat := fun p q H => H;
  round_zero := Qeq_refl 0;
  round_monotone := fun p q H => H;
  round_opp := fun q => Qeq_refl (- q);
  overflows_compat := fun p q _ => eq_refl;
  overflows_opp := fun q => eq_refl;
  overflows_byte := fun q _ => eq_refl;
  round_byte := Qeq_refl 256;
  round_resolves := eq_refl
|}.

Definition exact_arithmetic_exact : Exact exact_arithmetic.
Proof. split; intros q; reflexivity. Defined.

(** * Properties *)

(** ** The format of step 1/1024 *)

Lemma nearest_compat (p q : Q) : p == q -> nearest p = nearest q.
Proof.
  intros H. unfold nearest.
  rewrite (Qleb_comp 0 0 (Qeq_refl 0) p q H).
  rewrite (Qfloor_comp (p + (1 # 2)) (q + (1 # 2))) by (now rewrite H).
  rewrite (Qceiling_comp (p - (1 # 2)) (q - (1 # 2))) by (now rewrite H).
  reflexivity.
Qed.

Lemma nearest_monotone (p q : Q) : p <= q -> (nearest p <= nearest q)%Z.
Proof.
  intros H. unfold nearest.
  destruct (Qle_bool 0 p) eqn:Hp, (Qle_bool 0 q) eqn:Hq.
  - apply Qfloor_resp_le. lra.
  - apply Qle_bool_iff in Hp.
    assert (~ 0 <= q) by (rewrite <- Qle_bool_iff; congruence). lra.
  - assert (Hp' : ~ 0 <= p) by (rewrite <- Qle_bool_iff; congruence).
    apply Qle_bool_iff in Hq.
    apply Z.le_trans with 0%Z.
    + change 0%Z with (Qceiling 0). apply Qceiling_resp_le. lra.
    + change 0%Z with (Qfloor 0). apply Qfloor_resp_le. lra.
  - apply Qceiling_resp_le. lra.
Qed.

Lemma nearest_opp (q : Q) : nearest (- q) = (- nearest q)%Z.
Proof.
  unfold nearest.
  destruct (Qle_bool 0 (- q)) eqn:Hn, (Qle_bool 0 q) eqn:Hq.
  - apply Qle_bool_iff in Hn, Hq.
    assert (E : q == 0) by lra.
    rewrite E. reflexivity.
  - unfold Qceiling. rewrite Z.opp_involutive. apply Qfloor_comp. ring.
  - unfold Qceiling. f_equal. apply Qfloor_comp. ring.
  - assert (~ 0 <= - q) by (rewrite <- Qle_bool_iff; congruence).
    assert (~ 0 <= q) by (rewrite <- Qle_bool_iff; congruence). lra.
Qed.

Lemma to_grid_compat (p q : Q) : p == q -> to_grid p == to_grid q.
Proof.
  intros H. unfold to_grid. rewrite (nearest_compat (p * 1024) (q * 1024)); [reflexivity|].
  now rewrite H.
Qed.

Lemma to_grid_zero : to_grid 0 == 0.
Proof. reflexivity. Qed.

Lemma to_grid_monotone (p q : Q) : p <= q -> to_grid p <= to_grid q.
Proof.
  intros H. unfold to_grid.
  assert (Hn : (nearest (p * 1024) <= nearest (q * 1024))%Z)
    by (apply nearest_monotone; lra).
  apply Qmult_le_compat_r; [|discriminate].
  rewrite <- Zle_Qle. exact Hn.
Qed.

Lemma to_grid_opp (q : Q) : to_grid (- q) == - to_grid q.
Proof.
  unfold to_grid.
  rewrite (nearest_compat (- q * 1024) (- (q * 1024))) by ring.
  rewrite nearest_opp, inject_Z_opp. field.
Qed.

(** ** The range of float32 *)

Lemma beyond_float32_compat (p q : Q) :
  p == q -> beyond_float32 p = beyond_float32 q.
Proof. intros H. unfold beyond_float32. now rewrite H. Qed.

Lemma beyond_float32_opp (q : Q) : beyond_float32 (- q) = beyond_float32 q.
Proof. unfold beyond_float32. now rewrite Qabs_opp. Qed.

Lemma beyond_float32_byte (q : Q) : Qabs q <= 256 -> beyond_float32 q = false.
Proof.
  intros H. unfold beyond_float32.
  assert (E : Qle_bool (Qabs q) float32_max = true).
  { apply Qle_bool_iff. eapply Qle_trans; [exact H|].
    unfold Qle, float32_max. cbn. lia. }
  now rewrite E.
Qed.

(** ** Arithmetic in any format *)

(** One statement of a block in the [result] monad has returned. *)
Ltac step E := rewrite E; cbn [bind].

Create HintDb sign discriminated.

Section Facts.

Context {R : Rounding}.

#[export] Instance round_morphism : Proper (Qeq ==> Qeq) round.
Proof. intros p q H. now apply round_compat. Qed.

Lemma round_opp_sub (p q : Q) : round (q - p) == - round (p - q).
Proof.
  rewrite <- round_opp. apply round_compat. ring.
Qed.

Lemma overflows_large (q : Q) : overflows q = true -> 256 < Qabs q.
Proof.
  intros H. apply Qnot_le_lt. intros Hle.
  rewrite overflows_byte in H by exact Hle. discriminate.
Qed.

Lemma fin_eq (p q : Q) : p == q -> fin p = fin q.
Proof.
  intros H. unfold fin. rewrite (overflows_compat p q H).
  destruct (overflows q).
  - now rewrite H.
  - f_equal. now apply Qred_complete, round_compat.
Qed.

(** A result within the range of the bytes is rounded, and stays within
    that range. *)
Lemma fin_in_range (q : Q) : Qabs q <= 256 -> fin q = Fin (Qred (round q)).
Proof. intros H. unfold fin. now rewrite overflows_byte. Qed.

Lemma round_in_range (q : Q) : Qabs q <= 256 -> Qabs (Qred (round q)) <= 256.
Proof.
  intros H. apply Qabs_Qle_condition in H. destruct H as [Hlo Hhi].
  apply Qabs_Qle_condition. rewrite Qred_correct. split.
  - rewrite <- round_byte, <- round_opp. now apply round_monotone.
  - rewrite <- round_byte. now apply round_monotone.
Qed.

Lemma fin_zero (p : Q) : p == 0 -> fin p = Fin 0.
Proof.
  intros H. rewrite (fin_eq p 0 H), fin_in_range by (unfold Qle; cbn; lia).
  f_equal. change 0 with (Qred 0) at 2. apply Qred_complete, round_zero.
Qed.

Lemma fin_nonneg (p : Q) : 0 <= p -> 0 <= Qred (round p).
Proof.
  intros H. rewrite Qred_correct, <- round_zero. now apply round_monotone.
Qed.

Lemma fin_is_nonneg (p : Q) : 0 <= p -> nonneg (fin p).
Proof.
  intros H. unfold fin. destruct (overflows p) eqn:E.
  - apply overflows_large in E. rewrite Qabs_pos in E by exact H.
    assert (Hc : (p ?= 0) = Gt) by (apply Qgt_alt; lra).
    rewrite Hc. exact I.
  - cbn [nonneg]. now apply fin_nonneg.
Qed.

(** An operation on numbers overflows to an infinity, never to NaN. *)
Lemma fin_not_NaN (p : Q) : fin p <> NaN.
Proof.
  unfold fin. destruct (overflows p) eqn:E; [|discriminate].
  apply overflows_large in E.
  destruct (p ?= 0) eqn:C; cbn [signed_inf]; try discriminate.
  apply Qeq_alt in C. rewrite C in E. cbn in E. lra.
Qed.

(** The constants of the script are numbers of the format, above zero. *)
Lemma fin_positive (q : Q) :
  1 # 1024 <= q -> q <= 256 -> exists r, fin q = Fin r /\ 0 < r.
Proof.
  intros Hlo Hhi. eexists. split.
  - apply fin_in_range. rewrite Qabs_pos by lra. exact Hhi.
  - rewrite Qred_correct. eapply Qlt_le_trans; [apply round_resolves|].
    now apply round_monotone.
Qed.

(** In an exact format a result is the exact value. *)
Lemma fin_of_exact (E : Exact R) (q : Q) : fin q = Fin (Qred q).
Proof.
  unfold fin. rewrite never_overflows. f_equal.
  apply Qred_complete, round_exact.
Qed.

Lemma fadd_Fin (p q : Q) : fadd (Fin p) (Fin q) = fin (p + q).
Proof. reflexivity. Qed.

Lemma fsub_Fin (p q : Q) : fsub (Fin p) (Fin q) = fin (p - q).
Proof. reflexivity. Qed.

Lemma fmul_Fin (p q : Q) : fmul (Fin p) (Fin q) = fin (p * q).
Proof. reflexivity. Qed.

Lemma fmul_comm (a b : fval) : fmul a b = fmul b a.
Proof.
  destruct a as [p| | |], b as [q| | |]; try reflexivity.
  rewrite !fmul_Fin. apply fin_eq. ring.
Qed.

(** The square of a difference does not depend on its direction. *)
Lemma fsquare_fsub_sym (a b : fval) : fsquare (fsub a b) = fsquare (fsub b a).
Proof.
  destruct a as [p| | |], b as [q| | |]; try reflexivity.
  rewrite !fsub_Fin. unfold fin.
  rewrite <- (overflows_opp (p - q)).
  rewrite (overflows_compat (- (p - q)) (q - p)) by ring.
  destruct (overflows (q - p)).
  - destruct (p - q ?= 0) eqn:C1, (q - p ?= 0) eqn:C2; try reflexivity; exfalso;
      first [apply Qeq_alt in C1 | apply Qlt_alt in C1 | apply Qgt_alt in C1];
      first [apply Qeq_alt in C2 | apply Qlt_alt in C2 | apply Qgt_alt in C2];
      lra.
  - unfold fsquare. rewrite !fmul_Fin.
    apply fin_eq. rewrite !Qred_correct, (round_opp_sub p q). ring.
Qed.

Lemma fsub_self (a : fval) : is_finite a = true -> fsub a a = Fin 0.
Proof.
  destruct a as [p| | |]; try discriminate. intros _.
  rewrite fsub_Fin. apply fin_zero. ring.
Qed.

Lemma fsub_not_NaN (a b : fval) :
  is_finite a = true -> is_finite b = true -> fsub a b <> NaN.
Proof.
  destruct a as [p| | |], b as [q| | |]; try discriminate. intros _ _.
  rewrite fsub_Fin. apply fin_not_NaN.
Qed.

(** A square is not below zero, whatever is squared, NaN apart. *)
Lemma fsquare_not_below_zero (a : fval) : a <> NaN -> nonneg (fsquare a).
Proof.
  destruct a as [p| | |]; intros H; try exact I; [|congruence].
  unfold fsquare. rewrite fmul_Fin. apply fin_is_nonneg. nra.
Qed.

Lemma fsquare_nonneg (a : fval) : is_finite a = true -> nonneg (fsquare a).
Proof.
  intros H. apply fsquare_not_below_zero. now destruct a.
Qed.

(** *** Sums *)

Lemma fadd_nonneg (a b : fval) : nonneg a -> nonneg b -> nonneg (fadd a b).
Proof.
  destruct a as [p| | |], b as [q| | |]; cbn [nonneg]; intros Ha Hb;
    try contradiction; try exact I.
  rewrite fadd_Fin. apply fin_is_nonneg. lra.
Qed.

(** A product with a number above zero. *)
Lemma fmul_nonneg (a b : fval) :
  (exists p, a = Fin p /\ 0 < p) -> nonneg b -> nonneg (fmul a b).
Proof.
  intros (p & -> & Hp). destruct b as [q| | |]; cbn [nonneg]; intros Hb;
    try contradiction.
  - rewrite fmul_Fin. apply fin_is_nonneg. nra.
  - cbn [fmul]. apply Qgt_alt in Hp. rewrite Hp. exact I.
Qed.

Lemma fold_fadd_nonneg (l : list fval) (acc : fval) :
  nonneg acc -> Forall nonneg l -> nonneg (fold_left fadd l acc).
Proof.
  revert acc. induction l as [|x l IH]; intros acc Hacc Hl; simpl; [assumption|].
  inversion Hl; subst. apply IH; [now apply fadd_nonneg | assumption].
Qed.

Lemma nonneg_zero : nonneg (Fin 0).
Proof. cbn. lra. Qed.

Lemma fsum_nonneg (l : list fval) : Forall nonneg l -> nonneg (fsum l).
Proof. intros H. apply fold_fadd_nonneg; [apply nonneg_zero | assumption]. Qed.

Lemma nonneg_one : nonneg (Fin 1).
Proof. cbn. lra. Qed.

#[local] Hint Resolve nonneg_zero nonneg_one fin_is_nonneg
  fadd_nonneg fsum_nonneg : sign.

Lemma fsum_zero (l : list fval) : Forall (fun a => a = Fin 0) l -> fsum l = Fin 0.
Proof.
  unfold fsum. induction l as [|x l IH]; intros H; cbn [fold_left]; [reflexivity|].
  inversion H; subst. rewrite fadd_Fin, fin_zero by ring. now apply IH.
Qed.

(** *** Division by a count *)

Lemma of_nat_pos (n : nat) : (0 < n)%nat -> exists q, of_nat n = Fin q /\ 0 < q.
Proof.
  intros H. exists (Z.of_nat n # 1). split; [reflexivity|].
  unfold Qlt. simpl. lia.
Qed.

Lemma fdiv_Fin_pos (p q : Q) : 0 < q -> fdiv (Fin p) (Fin q) = fin (p / q).
Proof.
  intros Hq. cbn [fdiv]. destruct (q ?= 0) eqn:E; try reflexivity.
  apply Qeq_alt in E. lra.
Qed.

Lemma fdiv_Fin_zero (p q : Q) : 0 < p -> q == 0 -> fdiv (Fin p) (Fin q) = PInf.
Proof.
  intros Hp Hq. cbn [fdiv].
  apply Qeq_alt in Hq. rewrite Hq.
  apply Qgt_alt in Hp. now rewrite Hp.
Qed.

Lemma fdiv_nonneg_pos (a b : fval) :
  nonneg a -> (exists q, b = Fin q /\ 0 < q) -> nonneg (fdiv a b).
Proof.
  intros Ha (q & -> & Hq). destruct a as [p| | |]; cbn [nonneg] in Ha;
    try contradiction.
  - rewrite fdiv_Fin_pos by assumption.
    apply fin_is_nonneg. apply Qle_shift_div_l; lra.
  - cbn [fdiv]. apply Qgt_alt in Hq. rewrite Hq. exact I.
Qed.

Lemma fdiv_zero_pos (b : fval) :
  (exists q, b = Fin q /\ 0 < q) -> fdiv (Fin 0) b = Fin 0.
Proof.
  intros (q & -> & Hq). rewrite fdiv_Fin_pos by assumption.
  apply fin_zero. field. lra.
Qed.

Lemma fmul_zero_r (a : fval) : is_finite a = true -> fmul a (Fin 0) = Fin 0.
Proof.
  destruct a as [p| | |]; try discriminate. intros _.
  rewrite fmul_Fin. apply fin_zero. ring.
Qed.

Lemma fmul_constant_zero (q : Q) :
  1 # 1024 <= q -> q <= 256 -> fmul (fin q) (Fin 0) = Fin 0.
Proof.
  intros Hlo Hhi. destruct (fin_positive q Hlo Hhi) as (r & -> & _).
  now apply fmul_zero_r.
Qed.

(** *** Values that are not negative *)

Lemma nonneg_not_negative (a : fval) : nonneg a -> not_negative a.
Proof. intros H. now right. Qed.

Lemma fin_not_negative (p : Q) : 0 <= p -> not_negative (fin p).
Proof. intros H. right. now apply fin_is_nonneg. Qed.

Lemma of_nat_not_negative (n : nat) : not_negative (of_nat n).
Proof. right. unfold of_nat, of_Z. cbn [nonneg]. unfold Qle. cbn. lia. Qed.

Lemma fadd_not_negative (a b : fval) :
  not_negative a -> not_negative b -> not_negative (fadd a b).
Proof.
  intros [-> | Ha]; [now left|]. intros [-> | Hb]; [left; now destruct a|].
  right. now apply fadd_nonneg.
Qed.

Lemma fmul_not_negative (a b : fval) :
  not_negative a -> not_negative b -> not_negative (fmul a b).
Proof.
  intros [-> | Ha]; [now left|]. intros [-> | Hb]; [left; now destruct a|].
  destruct a as [p| | |], b as [q| | |]; cbn [nonneg] in Ha, Hb;
    try contradiction; try (right; exact I).
  - right. rewrite fmul_Fin. apply fin_is_nonneg. nra.
  - cbn [fmul]. destruct (p ?= 0) eqn:C; cbn [signed_inf];
      [now left | | right; exact I].
    apply Qlt_alt in C. lra.
  - cbn [fmul]. destruct (q ?= 0) eqn:C; cbn [signed_inf];
      [now left | | right; exact I].
    apply Qlt_alt in C. lra.
Qed.

Lemma fdiv_not_negative (a b : fval) :
  not_negative a -> not_negative b -> not_negative (fdiv a b).
Proof.
  intros [-> | Ha]; [now left|]. intros [-> | Hb]; [left; now destruct a|].
  destruct a as [p| | |], b as [q| | |]; cbn [nonneg] in Ha, Hb;
    try contradiction; try (left; reflexivity).
  - cbn [fdiv]. destruct (q ?= 0) eqn:C.
    + destruct (p ?= 0) eqn:C'; cbn [signed_inf];
        [now left | | right; exact I].
      apply Qlt_alt in C'. lra.
    + apply Qlt_alt in C. lra.
    + apply Qgt_alt in C. apply fin_not_negative. apply Qle_shift_div_l; lra.
  - right. cbn. lra.
  - cbn [fdiv]. destruct (q ?= 0) eqn:C; try (right; exact I).
    apply Qlt_alt in C. lra.
Qed.

Lemma fsquare_not_negative (a : fval) : not_negative (fsquare a).
Proof.
  destruct a as [p| | |]; try (right; exact I); [|now left].
  right. now apply fsquare_nonneg.
Qed.

Lemma fold_fadd_not_negative (l : list fval) (acc : fval) :
  not_negative acc -> Forall not_negative l ->
  not_negative (fold_left fadd l acc).
Proof.
  revert acc. induction l as [|x l IH]; intros acc Hacc Hl; simpl; [assumption|].
  inversion Hl; subst. apply IH; [now apply fadd_not_negative | assumption].
Qed.

Lemma fsum_not_negative (l : list fval) :
  Forall not_negative l -> not_negative (fsum l).
Proof.
  intros H. apply fold_fadd_not_negative; [|assumption].
  right. apply nonneg_zero.
Qed.

(** *** Values that are not finite *)

Lemma fadd_not_finite_l (a b : fval) :
  is_finite a = false -> is_finite (fadd a b) = false.
Proof. destruct a, b; try discriminate; reflexivity. Qed.

Lemma fsub_not_finite_r (a b : fval) :
  is_finite b = false -> is_finite (fsub a b) = false.
Proof. destruct a, b; try discriminate; reflexivity. Qed.

Lemma signed_inf_not_finite (c : comparison) : is_finite (signed_inf c) = false.
Proof. now destruct c. Qed.

Lemma fmul_not_finite_r (a b : fval) :
  is_finite b = false -> is_finite (fmul a b) = false.
Proof.
  destruct a, b; try discriminate; try reflexivity; intros _; cbn [fmul];
    apply signed_inf_not_finite.
Qed.

Lemma fsquare_not_finite (a : fval) :
  is_finite a = false -> is_finite (fsquare a) = false.
Proof. destruct a; try discriminate; reflexivity. Qed.

Lemma fdiv_not_finite_l (a b : fval) :
  is_finite a = false -> is_finite (fdiv a b) = false.
Proof.
  destruct a, b; try discriminate; try reflexivity; intros _; cbn [fdiv];
    now destruct (q ?= 0).
Qed.

Lemma fold_fadd_not_finite (l : list fval) (acc : fval) :
  is_finite acc = false -> is_finite (fold_left fadd l acc) = false.
Proof.
  revert acc. induction l as [|x l IH]; intros acc H; cbn [fold_left];
    [assumption|].
  apply IH. now apply fadd_not_finite_l.
Qed.

Lemma fadd_not_finite_r (a b : fval) :
  is_finite b = false -> is_finite (fadd a b) = false.
Proof. destruct a, b; try discriminate; reflexivity. Qed.

Lemma fsum_not_finite (l : list fval) :
  Exists (fun a => is_finite a = false) l -> is_finite (fsum l) = false.
Proof.
  unfold fsum. generalize (Fin 0).
  induction l as [|x l IH]; intros acc H; inversion H; subst; cbn [fold_left].
  - apply fold_fadd_not_finite. now apply fadd_not_finite_r.
  - now apply IH.
Qed.

Lemma not_all_finite (t : Tensor) :
  ~ all_finite t <-> Exists (fun a => is_finite a = false) (data t).
Proof.
  unfold all_finite. split.
  - induction (data t) as [|a l IH]; intros H.
    + exfalso. apply H. constructor.
    + destruct (is_finite a) eqn:E.
      * right. apply IH. intros HF. apply H. now constructor.
      * now left.
  - intros H HF. apply Exists_exists in H. destruct H as (a & Hin & Ha).
    rewrite Forall_forall in HF. specialize (HF a Hin). congruence.
Qed.

(** ** Row-major tables *)

Lemma length_flat_table {A : Type} (f : nat -> nat -> A) (m n s : nat) :
  length (flat_map (fun i => map (f i) (seq 0 m)) (seq s n)) = (n * m)%nat.
Proof.
  revert s. induction n as [|n IH]; intros s; simpl; [reflexivity|].
  now rewrite length_app, length_map, length_seq, IH.
Qed.

Lemma length_tabulate2 {A : Type} (n m : nat) (f : nat -> nat -> A) :
  length (tabulate2 n m f) = (n * m)%nat.
Proof. apply length_flat_table. Qed.

Lemma nth_flat_table {A : Type} (f : nat -> nat -> A) (d : A) (m n s i j : nat) :
  (i < n)%nat -> (j < m)%nat ->
  nth (i * m + j) (flat_map (fun i => map (f i) (seq 0 m)) (seq s n)) d
  = f (s + i)%nat j.
Proof.
  revert s i. induction n as [|n IH]; intros s i Hi Hj; [lia|].
  simpl. destruct i as [|i].
  - rewrite app_nth1 by (rewrite length_map, length_seq; simpl; lia).
    simpl. rewrite (nth_indep _ d (f s 0%nat)) by (rewrite length_map, length_seq; lia).
    rewrite map_nth, seq_nth by lia. now rewrite Nat.add_0_r.
  - rewrite app_nth2 by (rewrite length_map, length_seq; simpl; lia).
    rewrite length_map, length_seq.
    replace (S i * m + j - m)%nat with (i * m + j)%nat by (simpl; lia).
    rewrite IH by lia. f_equal. lia.
Qed.

Lemma nth_tabulate2 {A : Type} (n m : nat) (f : nat -> nat -> A) (d : A) (i j : nat) :
  (i < n)%nat -> (j < m)%nat -> nth (i * m + j) (tabulate2 n m f) d = f i j.
Proof. intros Hi Hj. unfold tabulate2. now rewrite nth_flat_table. Qed.

Lemma flat_map_ext_seq {A : Type} (f g : nat -> list A) (s n : nat) :
  (forall i, (s <= i < s + n)%nat -> f i = g i) ->
  flat_map f (seq s n) = flat_map g (seq s n).
Proof.
  revert s. induction n as [|n IH]; intros s H; simpl; [reflexivity|].
  rewrite (H s) by lia. f_equal. apply IH. intros i Hi. apply H. lia.
Qed.

Lemma tabulate2_ext {A : Type} (n m : nat) (f g : nat -> nat -> A) :
  (forall i j, (i < n)%nat -> (j < m)%nat -> f i j = g i j) ->
  tabulate2 n m f = tabulate2 n m g.
Proof.
  intros H. unfold tabulate2. apply flat_map_ext_seq. intros i Hi.
  apply map_ext_in. intros j Hj. apply in_seq in Hj. apply H; lia.
Qed.

Lemma get2_tabulate2 (n m : nat) (f : nat -> nat -> fval) (i j : nat) :
  (i < n)%nat -> (j < m)%nat -> get2 m (tabulate2 n m f) i j = f i j.
Proof. intros. unfold get2. now apply nth_tabulate2. Qed.

Lemma combine_map_both {A B C : Type} (f : A -> B) (g : A -> C) (l : list A) :
  combine (map f l) (map g l) = map (fun x => (f x, g x)) l.
Proof. induction l as [|x l IH]; simpl; [reflexivity | now rewrite IH]. Qed.

Lemma combine_same {A : Type} (l : list A) :
  combine l l = map (fun x => (x, x)) l.
Proof. induction l as [|x l IH]; simpl; [reflexivity | now rewrite IH]. Qed.

Lemma combine_swap {A B : Type} (l1 : list A) (l2 : list B) :
  combine l2 l1 = map (fun p => (snd p, fst p)) (combine l1 l2).
Proof.
  revert l2. induction l1 as [|x l1 IH]; intros [|y l2]; simpl; try reflexivity.
  now rewrite IH.
Qed.

Lemma nth_finite (d : list fval) (k : nat) :
  Forall (fun a => is_finite a = true) d -> is_finite (nth k d (Fin 0)) = true.
Proof.
  intros H. destruct (nth_in_or_default k d (Fin 0)) as [Hin | ->]; [|reflexivity].
  rewrite Forall_forall in H. now apply H.
Qed.

(** ** Gram matrices *)

Lemma dot_comm (u v : list fval) : Spec.dot u v = Spec.dot v u.
Proof.
  unfold Spec.dot. rewrite (combine_swap u v), map_map. f_equal.
  apply map_ext. intros [a b]. simpl. apply fmul_comm.
Qed.

Lemma dot_rows (c : nat) (d : list fval) (i j : nat) :
  Spec.dot (row c d i) (row c d j)
  = fsum (map (fun l => fmul (get2 c d i l) (get2 c d j l)) (seq 0 c)).
Proof. unfold Spec.dot, row. now rewrite combine_map_both, map_map. Qed.

Lemma dot_self (u : list fval) : Spec.dot u u = fsum (map fsquare u).
Proof. unfold Spec.dot. now rewrite combine_same, map_map. Qed.

Lemma transpose_matrix (r c : nat) (d : list fval) :
  tf.transpose (mkTensor [r; c] d)
  = Returns (mkTensor [c; r] (tabulate2 c r (fun j i => get2 c d i j))).
Proof. reflexivity. Qed.

(** The value of [gram_matrix] on a stored matrix: the table of the inner
    products of its rows. *)
Lemma gram_matrix_rows (r c : nat) (d : list fval) :
  gram_matrix (mkTensor [r; c] d)
  = Returns (mkTensor [r; r]
      (tabulate2 r r (fun i j => Spec.dot (row c d i) (row c d j)))).
Proof.
  unfold gram_matrix. rewrite transpose_matrix. cbn [bind].
  unfold tf.matmul. cbn [shape data]. rewrite Nat.eqb_refl. do 2 f_equal.
  apply tabulate2_ext. intros i j Hi Hj. rewrite dot_rows. f_equal.
  apply map_ext_in. intros l Hl. apply in_seq in Hl.
  rewrite get2_tabulate2 by lia. reflexivity.
Qed.

Lemma dot_finite_nonneg (u : list fval) :
  Forall (fun a => is_finite a = true) u -> nonneg (Spec.dot u u).
Proof.
  intros H. rewrite dot_self. apply fsum_nonneg.
  apply Forall_map. eapply Forall_impl; [|exact H].
  intros a Ha. now apply fsquare_nonneg.
Qed.

Lemma row_finite (c : nat) (d : list fval) (i : nat) :
  Forall (fun a => is_finite a = true) d ->
  Forall (fun a => is_finite a = true) (row c d i).
Proof.
  intros H. unfold row. apply Forall_map, Forall_forall. intros j _.
  unfold get2. now apply nth_finite.
Qed.

(** C8.  On a stored matrix [M] with [r] rows (channels) and [c] columns,
    [gram_matrix] returns the [r] by [r] matrix [M] times its transpose:
    its rows are those of the product, it is symmetric, each diagonal entry
    is the sum of the squares of the corresponding row of [M], and that
    entry is not below zero (a number, or plus infinity when the sum
    overflows) when the entries of [M] are finite. *)
Theorem gram_matrix_times_transpose (r c : nat) (d : list fval) :
  exists G,
    gram_matrix (mkTensor [r; c] d) = Returns G /\
    shape G = [r; r] /\
    Spec.rows_of r r (data G) = Spec.times_transpose (Spec.rows_of r c d) /\
    (forall i j, (i < r)%nat -> (j < r)%nat ->
       get2 r (data G) i j = get2 r (data G) j i) /\
    (forall i, (i < r)%nat ->
       get2 r (data G) i i = fsum (map fsquare (row c d i))) /\
    (Forall (fun a => is_finite a = true) d ->
     forall i, (i < r)%nat -> nonneg (get2 r (data G) i i)).
Proof.
  eexists. split; [apply gram_matrix_rows|]. cbn [shape data].
  split; [reflexivity|]. split; [|split; [|split]].
  - unfold Spec.rows_of, Spec.times_transpose. rewrite map_map.
    apply map_ext_in. intros i Hi. apply in_seq in Hi.
    rewrite map_map. unfold row at 1. apply map_ext_in. intros j Hj. apply in_seq in Hj.
    now rewrite get2_tabulate2 by lia.
  - intros i j Hi Hj. rewrite !get2_tabulate2 by assumption. apply dot_comm.
  - intros i Hi. rewrite get2_tabulate2 by assumption. apply dot_self.
  - intros Hfin i Hi. rewrite get2_tabulate2 by assumption.
    apply dot_finite_nonneg. now apply row_finite.
Qed.

(** ** Mean squared difference *)

Lemma shape_eqb_refl (s : list nat) : shape_eqb s s = true.
Proof. unfold shape_eqb. destruct (list_eq_dec Nat.eq_dec s s); congruence. Qed.

Lemma shape_eqb_sym (s1 s2 : list nat) : shape_eqb s1 s2 = shape_eqb s2 s1.
Proof.
  unfold shape_eqb.
  destruct (list_eq_dec Nat.eq_dec s1 s2), (list_eq_dec Nat.eq_dec s2 s1);
    congruence.
Qed.

Lemma shape_eqb_eq (s1 s2 : list nat) : s1 = s2 -> shape_eqb s1 s2 = true.
Proof. intros ->. apply shape_eqb_refl. Qed.

(** What the three TensorFlow calls of the losses compute on two tensors
    of one shape. *)
Lemma mean_square_subtract (a b : Tensor) :
  shape a = shape b ->
  exists d, tf.subtract a b = Returns d /\
            tf.reduce_mean (tf.square d)
            = Spec.mean_squared_difference (data a) (data b).
Proof.
  intros Hs. unfold tf.subtract. rewrite (shape_eqb_eq _ _ Hs).
  eexists. split; [reflexivity|].
  unfold tf.reduce_mean, tf.square, Spec.mean_squared_difference. cbn [data].
  now rewrite map_map, !length_map.
Qed.

Lemma msd_sym (x y : list fval) :
  Spec.mean_squared_difference x y = Spec.mean_squared_difference y x.
Proof.
  unfold Spec.mean_squared_difference.
  rewrite (combine_swap x y), map_map, length_map. do 2 f_equal.
  apply map_ext. intros [a b]. apply fsquare_fsub_sym.
Qed.

Lemma Forall_combine_finite (x y : list fval) :
  Forall (fun a => is_finite a = true) x ->
  Forall (fun a => is_finite a = true) y ->
  Forall (fun p => is_finite (fst p) = true /\ is_finite (snd p) = true)
         (combine x y).
Proof.
  intros Hx. revert y. induction Hx as [|a x Ha Hx IH]; intros y Hy; simpl.
  - constructor.
  - destruct Hy as [|b y Hb Hy]; constructor; auto.
Qed.

Lemma msd_nonneg (x y : list fval) :
  Forall (fun a => is_finite a = true) x ->
  Forall (fun a => is_finite a = true) y ->
  (0 < length (combine x y))%nat ->
  nonneg (Spec.mean_squared_difference x y).
Proof.
  intros Hx Hy Hlen. unfold Spec.mean_squared_difference.
  apply fdiv_nonneg_pos; [|now apply of_nat_pos].
  apply fsum_nonneg, Forall_map.
  eapply Forall_impl; [|apply Forall_combine_finite; eassumption].
  intros [a b] [Ha Hb]. apply fsquare_not_below_zero. now apply fsub_not_NaN.
Qed.

Lemma msd_self_zero (x : list fval) :
  Forall (fun a => is_finite a = true) x -> (0 < length x)%nat ->
  Spec.mean_squared_difference x x = Fin 0.
Proof.
  intros Hx Hlen. unfold Spec.mean_squared_difference.
  rewrite combine_same, map_map, length_map.
  rewrite fsum_zero; [now apply fdiv_zero_pos, of_nat_pos|].
  apply Forall_map. eapply Forall_impl; [|exact Hx].
  intros a Ha. cbn [fst snd]. rewrite fsub_self by assumption.
  unfold fsquare. now apply fmul_zero_r.
Qed.

Lemma length_combine_same {A B : Type} (x : list A) (y : list B) :
  length x = length y -> length (combine x y) = length x.
Proof. intros H. rewrite length_combine. lia. Qed.

Lemma content_cost_value (B : Backend) (content_image generated_image : Tensor) :
  shape (content_model B content_image) = shape (content_model B generated_image) ->
  content_cost B content_image generated_image
  = Returns (Spec.content_loss (content_model B content_image)
                               (content_model B generated_image)).
Proof.
  intros Hs. unfold content_cost, content_cost_of, Spec.content_loss.
  destruct (mean_square_subtract _ _ Hs) as (d & -> & Hd).
  cbn [bind]. now rewrite Hd.
Qed.

Lemma content_cost_nonneg (B : Backend) (content_image generated_image : Tensor) :
  let a_C := content_model B content_image in
  let a_G := content_model B generated_image in
  shape a_C = shape a_G -> all_finite a_C -> all_finite a_G ->
  length (data a_C) = length (data a_G) -> (0 < length (data a_C))%nat ->
  exists v, content_cost B content_image generated_image = Returns v /\ nonneg v.
Proof.
  intros a_C a_G Hs HC HG Hlen Hpos.
  eexists. split; [now apply content_cost_value|].
  apply fmul_nonneg; [apply fin_positive; lra|].
  apply msd_nonneg; try assumption. now rewrite length_combine_same.
Qed.

(** C5.  On content activations [a_C] and generated activations [a_G] of
    one shape, [content_cost] is 0.05 times the mean of the squared
    elementwise differences, and swapping the two pictures gives the same
    value; on finite, non-empty activations the value is exactly zero when
    the two maps coincide, and it is not below zero in general (a number,
    or plus infinity when a difference, a square or the sum overflows). *)
Theorem content_cost_mean_squared_difference
  (B : Backend) (content_image generated_image : Tensor) :
  let a_C := content_model B content_image in
  let a_G := content_model B generated_image in
  shape a_C = shape a_G ->
  content_cost B content_image generated_image
    = Returns (Spec.content_loss a_C a_G) /\
  content_cost B content_image generated_image
    = content_cost B generated_image content_image /\
  (all_finite a_C -> (0 < length (data a_C))%nat ->
   content_cost B content_image content_image = Returns (Fin 0)) /\
  (all_finite a_C -> all_finite a_G ->
   length (data a_C) = length (data a_G) -> (0 < length (data a_C))%nat ->
   exists v, content_cost B content_image generated_image = Returns v /\ nonneg v).
Proof.
  intros a_C a_G Hs.
  split; [now apply content_cost_value|]. split; [|split].
  - rewrite (content_cost_value B content_image generated_image Hs).
    rewrite (content_cost_value B generated_image content_image (eq_sym Hs)).
    unfold Spec.content_loss. now rewrite msd_sym.
  - intros HC Hpos.
    rewrite content_cost_value by reflexivity. unfold Spec.content_loss.
    rewrite msd_self_zero by assumption. now rewrite fmul_constant_zero by lra.
  - intros HC HG Hlen Hpos. now apply content_cost_nonneg.
Qed.

(** ** Style cost of one layer *)

Lemma concat_times_transpose (rows : nat -> list fval) (n : nat) :
  concat (Spec.times_transpose (map rows (seq 0 n)))
  = tabulate2 n n (fun i j => Spec.dot (rows i) (rows j)).
Proof.
  unfold Spec.times_transpose, tabulate2.
  rewrite map_map, flat_map_concat_map. f_equal.
  apply map_ext. intros i. now rewrite map_map.
Qed.

(** The rows of the unrolled activations are the channels. *)
Lemma unrolled_row (c P : nat) (d : list fval) (i : nat) :
  (i < c)%nat ->
  row P (tabulate2 c P (fun ch p => get2 c d p ch)) i
  = map (fun p => nth (p * c + i) d (Fin 0)) (seq 0 P).
Proof.
  intros Hi. unfold row. apply map_ext_in. intros p Hp. apply in_seq in Hp.
  now rewrite get2_tabulate2 by lia.
Qed.

Lemma unrolled_gram (a : Tensor) (c P : nat) :
  length (data a) = (P * c)%nat ->
  exists r A G,
    tf.reshape a [P; c] = Returns r /\
    tf.transpose r = Returns A /\
    gram_matrix A = Returns G /\
    shape G = [c; c] /\
    data G = gram_of a c P.
Proof.
  intros Hlen. unfold tf.reshape. cbn [numel fold_right].
  rewrite Hlen, Nat.mul_1_r, Nat.eqb_refl.
  eexists. eexists. eexists. split; [reflexivity|].
  rewrite transpose_matrix. split; [reflexivity|].
  rewrite gram_matrix_rows. split; [reflexivity|].
  cbn [shape data]. split; [reflexivity|].
  unfold gram_of, Spec.channel_rows. rewrite concat_times_transpose.
  apply tabulate2_ext. intros i j Hi Hj. now rewrite !unrolled_row.
Qed.

Lemma current_style_cost_value (a_S a_G : Tensor) (m h w c : nat) :
  shape a_G = [m; h; w; c] ->
  length (data a_G) = (h * w * c)%nat ->
  length (data a_S) = (h * w * c)%nat ->
  current_style_cost a_S a_G
  = Returns (fmul (style_scale h w c)
       (Spec.mean_squared_difference (gram_of a_S c (h * w))
                                     (gram_of a_G c (h * w)))).
Proof.
  intros Hsh HG HS. unfold current_style_cost, tf.get_shape4.
  rewrite Hsh. cbn [bind].
  destruct (unrolled_gram a_S c (h * w) HS) as (rS & AS & GS & E1 & E2 & E3 & HsS & <-).
  destruct (unrolled_gram a_G c (h * w) HG) as (rG & AG & GG & E4 & E5 & E6 & HsG & <-).
  step E1. step E2. step E4. step E5. step E3. step E6.
  destruct (mean_square_subtract GS GG) as (d & E7 & E8); [congruence|].
  step E7. now rewrite E8.
Qed.

Lemma style_round_value (total : fval) (i : nat) (wt : Q)
  (a_S a_G : Tensor) (h w c : nat) :
  nth_error style_coeff i = Some wt ->
  activation_map a_S (h, w, c) -> activation_map a_G (h, w, c) ->
  style_round total i a_S a_G
  = Returns (fadd total (layer_cost (style_scale h w c) wt c (h * w) a_S a_G)).
Proof.
  intros Hw [HsS HwS] [HsG HwG]. unfold style_round.
  unfold well_formed in HwS, HwG. rewrite HsS in HwS. rewrite HsG in HwG.
  cbn [numel fold_right] in HwS, HwG.
  rewrite (current_style_cost_value a_S a_G 1 h w c HsG) by lia.
  cbn [bind]. unfold coeff_at. rewrite Hw. reflexivity.
Qed.

(** [style_cost] sums the shares of the five layers. *)
Lemma style_cost_value (B : Backend) (dims : layer -> nat * nat * nat)
  (style_image generated_image : Tensor) :
  (forall l, In l style_layers ->
     activation_map (layer_output B l style_image) (dims l) /\
     activation_map (layer_output B l generated_image) (dims l)) ->
  style_cost B style_image generated_image
  = Returns (fsum (style_cost_terms B dims style_image generated_image)).
Proof.
  intros H. unfold style_cost, style_models, style_cost_terms, style_layers, style_coeff.
  cbn [map combine style_loop fst snd].
  assert (H1 := H block1_conv1). assert (H2 := H block2_conv1).
  assert (H3 := H block3_conv1). assert (H4 := H block4_conv1).
  assert (H5 := H block5_conv1). clear H.
  destruct (dims block1_conv1) as [[h1 w1] c1], (dims block2_conv1) as [[h2 w2] c2],
    (dims block3_conv1) as [[h3 w3] c3], (dims block4_conv1) as [[h4 w4] c4],
    (dims block5_conv1) as [[h5 w5] c5].
  destruct H1 as [? ?]; [simpl; tauto|]. destruct H2 as [? ?]; [simpl; tauto|].
  destruct H3 as [? ?]; [simpl; tauto|]. destruct H4 as [? ?]; [simpl; tauto|].
  destruct H5 as [? ?]; [simpl; tauto|].
  rewrite (style_round_value _ 0 0.5 _ _ h1 w1 c1) by (reflexivity || assumption).
  cbn [bind].
  rewrite (style_round_value _ 1 0.6 _ _ h2 w2 c2) by (reflexivity || assumption).
  cbn [bind].
  rewrite (style_round_value _ 2 0.8 _ _ h3 w3 c3) by (reflexivity || assumption).
  cbn [bind].
  rewrite (style_round_value _ 3 0.8 _ _ h4 w4 c4) by (reflexivity || assumption).
  cbn [bind].
  rewrite (style_round_value _ 4 0.5 _ _ h5 w5 c5) by (reflexivity || assumption).
  reflexivity.
Qed.

(** ** Sign of the style cost *)

Lemma gram_entries (a : Tensor) (c P : nat) :
  gram_of a c P
  = tabulate2 c c (fun i j =>
      Spec.dot (map (fun p => nth (p * c + i) (data a) (Fin 0)) (seq 0 P))
               (map (fun p => nth (p * c + j) (data a) (Fin 0)) (seq 0 P))).
Proof. unfold gram_of, Spec.channel_rows. apply concat_times_transpose. Qed.

Lemma gram_length (a : Tensor) (c P : nat) :
  length (gram_of a c P) = (c * c)%nat.
Proof. rewrite gram_entries. apply length_tabulate2. Qed.

Lemma np_square_pos (n : nat) :
  (0 < n)%nat -> exists q, np_square n = Fin q /\ 1 <= q.
Proof.
  intros H. exists (Z.of_nat (n * n) # 1). split; [reflexivity|].
  unfold Qle. simpl. nia.
Qed.

(** A result between zero and 256 is a number between zero and 256. *)
Lemma fin_byte_range (q : Q) :
  0 <= q -> q <= 256 -> exists r, fin q = Fin r /\ 0 <= r /\ r <= 256.
Proof.
  intros Hlo Hhi.
  assert (Ha : Qabs q <= 256) by (rewrite Qabs_pos by exact Hlo; exact Hhi).
  eexists. split; [now apply fin_in_range|]. split.
  - now apply fin_nonneg.
  - pose proof (round_in_range q Ha) as Hr.
    apply Qabs_Qle_condition in Hr. tauto.
Qed.

Lemma fdiv_byte_range (r : Q) (b : fval) :
  0 <= r -> r <= 256 -> (exists q, b = Fin q /\ 1 <= q) ->
  exists r', fdiv (Fin r) b = Fin r' /\ 0 <= r' /\ r' <= 256.
Proof.
  intros Hlo Hhi (q & -> & Hq). rewrite fdiv_Fin_pos by lra.
  apply fin_byte_range.
  - apply Qle_shift_div_l; lra.
  - apply Qle_shift_div_r; [lra | nra].
Qed.

Lemma fmul_one_byte_range (r : Q) :
  0 <= r -> r <= 256 ->
  exists r', fmul (Fin r) (Fin 1) = Fin r' /\ 0 <= r' /\ r' <= 256.
Proof.
  intros Hlo Hhi. rewrite fmul_Fin. apply fin_byte_range; lra.
Qed.

(** On maps that are not empty the constant of [style_cost] is a number of
    the format, not below zero. *)
Lemma style_scale_finite (n_H n_W n_C : nat) :
  (0 < n_H * n_W)%nat -> (0 < n_C)%nat ->
  exists r, style_scale n_H n_W n_C = Fin r /\ 0 <= r.
Proof.
  intros HP HC. unfold style_scale.
  destruct (fdiv_byte_range 1 (Fin 4)) as (r1 & -> & L1 & U1);
    [lra | lra | exists 4; split; [reflexivity | lra] |].
  destruct (fmul_one_byte_range r1 L1 U1) as (r2 & -> & L2 & U2).
  destruct (fdiv_byte_range r2 (np_square n_C) L2 U2 (np_square_pos n_C HC))
    as (r3 & -> & L3 & U3).
  destruct (fmul_one_byte_range r3 L3 U3) as (r4 & -> & L4 & U4).
  destruct (fdiv_byte_range r4 (np_square (n_H * n_W)) L4 U4
              (np_square_pos (n_H * n_W) HP)) as (r5 & -> & L5 & U5).
  now exists r5.
Qed.

Lemma style_scale_not_negative (n_H n_W n_C : nat) :
  not_negative (style_scale n_H n_W n_C).
Proof.
  unfold style_scale, np_square.
  assert (H1 : not_negative (Fin 1)) by (right; apply nonneg_one).
  assert (H4 : not_negative (Fin 4)) by (right; cbn; lra).
  repeat first [ apply fdiv_not_negative | apply fmul_not_negative
               | apply of_nat_not_negative | assumption ].
Qed.

Lemma msd_not_negative (x y : list fval) :
  not_negative (Spec.mean_squared_difference x y).
Proof.
  unfold Spec.mean_squared_difference.
  apply fdiv_not_negative; [|apply of_nat_not_negative].
  apply fsum_not_negative, Forall_map, Forall_forall.
  intros p _. apply fsquare_not_negative.
Qed.

(** The weights of the layers are numbers of the format, above zero. *)
Lemma style_coeff_range :
  Forall (fun wt => 1 # 1024 <= wt /\ wt <= 256) style_coeff.
Proof. repeat constructor; unfold Qle; cbn; lia. Qed.

Lemma layer_cost_not_negative (scale : fval) (wt : Q) (c P : nat)
  (a_S a_G : Tensor) :
  not_negative scale -> 0 <= wt ->
  not_negative (layer_cost scale wt c P a_S a_G).
Proof.
  intros Hk Hw. unfold layer_cost.
  apply fmul_not_negative; [now apply fin_not_negative|].
  apply fmul_not_negative; [exact Hk | apply msd_not_negative].
Qed.

Lemma layer_cost_nonneg (scale : fval) (wt : Q) (c P : nat) (a_S a_G : Tensor) :
  (exists r, scale = Fin r /\ 0 < r) -> 1 # 1024 <= wt -> wt <= 256 ->
  (0 < c)%nat ->
  Forall (fun x => is_finite x = true) (gram_of a_S c P) ->
  Forall (fun x => is_finite x = true) (gram_of a_G c P) ->
  nonneg (layer_cost scale wt c P a_S a_G).
Proof.
  intros Hk Hlo Hhi Hc HS HG. unfold layer_cost.
  apply fmul_nonneg; [now apply fin_positive|].
  apply fmul_nonneg; [exact Hk|].
  apply msd_nonneg; try assumption.
  rewrite length_combine, !gram_length. nia.
Qed.

Lemma layer_cost_zero (scale : fval) (wt : Q) (c P : nat) (a : Tensor) :
  is_finite scale = true -> 1 # 1024 <= wt -> wt <= 256 -> (0 < c)%nat ->
  Forall (fun x => is_finite x = true) (gram_of a c P) ->
  layer_cost scale wt c P a a = Fin 0.
Proof.
  intros Hk Hlo Hhi Hc Ha. unfold layer_cost.
  rewrite msd_self_zero; [|exact Ha | rewrite gram_length; nia].
  rewrite (fmul_zero_r scale) by assumption.
  now apply fmul_constant_zero.
Qed.

Lemma style_cost_terms_Forall (B : Backend) (dims : layer -> nat * nat * nat)
  (s g : Tensor) (P : fval -> Prop) :
  (forall l wt h w c, In l style_layers -> 1 # 1024 <= wt -> wt <= 256 ->
     dims l = (h, w, c) ->
     P (layer_cost (style_scale h w c) wt c (h * w)
                   (layer_output B l s) (layer_output B l g))) ->
  Forall P (style_cost_terms B dims s g).
Proof.
  intros H. unfold style_cost_terms. apply Forall_map, Forall_forall.
  intros [l wt] Hin. cbn [fst snd].
  destruct (dims l) as [[h w] c] eqn:E.
  pose proof style_coeff_range as Hc. rewrite Forall_forall in Hc.
  destruct (Hc wt (in_combine_r _ _ _ _ Hin)) as [Hlo Hhi].
  apply H; try assumption. eapply in_combine_l; eassumption.
Qed.

(** C7 (amended).  [style_cost] returns exactly zero when the style and the
    generated picture have the same activation map at every style layer and
    no entry of its Gram matrix has overflowed.  It returns a value that is
    not below zero (a number or plus infinity) when the Gram matrices of
    both pictures are in range and no constant has been rounded to zero,
    and on maps of matching shapes it never returns a negative value: what
    it returns is not below zero or is NaN.  [content_cost] returns a value
    that is not below zero on finite, non-empty maps of one shape. *)
Theorem losses_zero_and_nonnegative
  (B : Backend) (dims : layer -> nat * nat * nat)
  (content_image style_image generated_image : Tensor) :
  ((forall l, In l style_layers ->
      layer_output B l style_image = layer_output B l generated_image /\
      activation_map (layer_output B l generated_image) (dims l) /\
      gram_in_range (layer_output B l generated_image) (dims l) /\
      positive_dims (dims l)) ->
   style_cost B style_image generated_image = Returns (Fin 0)) /\
  ((forall l, In l style_layers ->
      activation_map (layer_output B l style_image) (dims l) /\
      activation_map (layer_output B l generated_image) (dims l) /\
      gram_in_range (layer_output B l style_image) (dims l) /\
      gram_in_range (layer_output B l generated_image) (dims l) /\
      scale_resolved (dims l) /\
      positive_dims (dims l)) ->
   exists v, style_cost B style_image generated_image = Returns v /\ nonneg v) /\
  ((forall l, In l style_layers ->
      activation_map (layer_output B l style_image) (dims l) /\
      activation_map (layer_output B l generated_image) (dims l)) ->
   exists v, style_cost B style_image generated_image = Returns v /\
             not_negative v) /\
  (let a_C := content_model B content_image in
   let a_G := content_model B generated_image in
   shape a_C = shape a_G -> all_finite a_C -> all_finite a_G ->
   length (data a_C) = length (data a_G) -> (0 < length (data a_C))%nat ->
   exists v, content_cost B content_image generated_image = Returns v /\ nonneg v).
Proof.
  split; [|split; [|split]].
  - intros H. rewrite (style_cost_value B dims).
    + f_equal. apply fsum_zero.
      apply style_cost_terms_Forall. intros l wt h w c Hl Hlo Hhi Hd.
      destruct (H l Hl) as (-> & _ & Hgram & Hpos).
      unfold gram_in_range in Hgram. rewrite Hd in Hgram, Hpos.
      destruct Hpos as [HP HC].
      destruct (style_scale_finite h w c HP HC) as (r & -> & _).
      now apply layer_cost_zero.
    + intros l Hl. destruct (H l Hl) as (-> & Ha & _). now split.
  - intros H. rewrite (style_cost_value B dims).
    + eexists. split; [reflexivity|].
      apply fsum_nonneg.
      apply style_cost_terms_Forall. intros l wt h w c Hl Hlo Hhi Hd.
      destruct (H l Hl) as (_ & _ & HgS & HgG & Hres & Hpos).
      unfold gram_in_range in HgS, HgG. unfold scale_resolved in Hres.
      rewrite Hd in HgS, HgG, Hres, Hpos. destruct Hpos as [HP HC].
      now apply layer_cost_nonneg.
    + intros l Hl. destruct (H l Hl) as (HS & HG & _). now split.
  - intros H. rewrite (style_cost_value B dims) by exact H.
    eexists. split; [reflexivity|].
    apply fsum_not_negative.
    apply style_cost_terms_Forall. intros l wt h w c Hl Hlo Hhi Hd.
    apply layer_cost_not_negative; [apply style_scale_not_negative | lra].
  - apply content_cost_nonneg.
Qed.

(** ** The optimisation loop *)

Section LoopFacts.

Variables (B : Backend) (dims : layer -> nat * nat * nat).
Hypothesis Hfeat : fixed_feature_shapes B dims.
Hypothesis Hopt : optimizer_keeps_shape B.

Variables (c s : Tensor) (alpha beta : fval) (Iterations : Z).

Lemma J_total_of_returns (g : Tensor) :
  exists r, J_total_of B c s alpha beta g = Returns r.
Proof.
  unfold J_total_of.
  rewrite content_cost_value.
  - cbn [bind]. rewrite (style_cost_value B dims).
    + cbn [bind]. eexists. reflexivity.
    + intros l _. split; apply Hfeat.
  - unfold content_model.
    pose proof (Hfeat content_layer c) as Hc.
    pose proof (Hfeat content_layer g) as Hg.
    unfold activation_map in Hc, Hg.
    destruct (dims content_layer) as [[h w] ch].
    destruct Hc as [-> _], Hg as [-> _]. reflexivity.
Qed.

Lemma display_copy_returns (g : Tensor) (h w : nat) :
  shape g = [1; h; w; 3]%nat -> exists img, display_copy g = Returns img.
Proof.
  intros Hg. unfold display_copy, display_image. rewrite Hg. cbn [Nat.eqb].
  unfold deprocess_image, sbind, iadd_axis2, read, lift, flip_axis2, sret, upd.
  cbn. eexists. reflexivity.
Qed.

Lemma train_step_returns (i : nat) (st : loop_state B) (h w : nat) :
  shape (generated_image B st) = [1; h; w; 3]%nat ->
  exists r st',
    J_total_of B c s alpha beta (generated_image B st) = Returns r /\
    train_step B c s alpha beta Iterations i st = Returns st' /\
    shape (generated_image B st') = [1; h; w; 3]%nat /\
    costs B st' = costs B st ++ [fst (fst r)] /\
    generated_images B st'
    = generated_images B st
      ++ (if Nat.eqb (i mod 200) 0 then [generated_image B st'] else []) /\
    generated_image B st'
    = snd (apply_gradients B (optimizer B st)
             (tape_gradient B (objective B c s alpha beta) (generated_image B st))
             (generated_image B st)).
Proof.
  intros Hg.
  destruct (J_total_of_returns (generated_image B st)) as [[[Jt Js] Jc] Hr].
  exists (Jt, Js, Jc). unfold train_step. rewrite Hr. cbn [bind fst].
  pose proof (Hopt (optimizer B st)
                (tape_gradient B (objective B c s alpha beta) (generated_image B st))
                (generated_image B st)) as Hkeep.
  destruct (apply_gradients B (optimizer B st) _ (generated_image B st))
    as [opt' g'].
  cbn [snd] in Hkeep |- *. rewrite Hg in Hkeep.
  destruct (Nat.eqb (i mod 200) 0).
  - destruct (display_copy_returns g' h w Hkeep) as [img ->]. cbn [bind].
    eexists. split; [reflexivity|]. split; [reflexivity|]. cbn.
    repeat split; try assumption; reflexivity.
  - eexists. split; [reflexivity|]. split; [reflexivity|]. cbn.
    rewrite app_nil_r. repeat split; try assumption; reflexivity.
Qed.

Lemma train_loop_snoc (range : list nat) (i : nat) (st : loop_state B) :
  train_loop B c s alpha beta Iterations (range ++ [i]) st
  = (st' <- train_loop B c s alpha beta Iterations range st ;;
     train_step B c s alpha beta Iterations i st').
Proof.
  revert st. induction range as [|j range IH]; intros st; cbn [app train_loop bind].
  - destruct (train_step B c s alpha beta Iterations i st); reflexivity.
  - destruct (train_step B c s alpha beta Iterations j st) as [st1|e]; cbn [bind].
    + apply IH.
    + reflexivity.
Qed.

End LoopFacts.

Lemma ceil_div_succ (n : nat) :
  ceil_div (S n) 200
  = (ceil_div n 200 + (if Nat.eqb (n mod 200) 0 then 1 else 0))%nat.
Proof.
  unfold ceil_div. cbn [Nat.sub].
  pose proof (Nat.div_mod_eq n 200) as Hn.
  pose proof (Nat.mod_upper_bound n 200 ltac:(lia)) as Hr.
  set (q := (n / 200)%nat) in *. set (r := (n mod 200)%nat) in *.
  destruct (Nat.eqb_spec r 0) as [E | E].
  - replace (S n + 199)%nat with ((q + 1) * 200 + 0)%nat by lia.
    replace (n + 199)%nat with (q * 200 + 199)%nat by lia.
    rewrite !Nat.div_add_l by lia. cbn. lia.
  - replace (S n + 199)%nat with ((q + 1) * 200 + r)%nat by lia.
    replace (n + 199)%nat with ((q + 1) * 200 + (r - 1))%nat by lia.
    rewrite !Nat.div_add_l by lia.
    rewrite !Nat.div_small by lia. lia.
Qed.

Lemma ceil_div_checkpoint (n : nat) :
  (n mod 200 = 0)%nat -> (200 * ceil_div n 200)%nat = n.
Proof.
  intros Hr. unfold ceil_div. cbn [Nat.sub].
  pose proof (Nat.div_mod_eq n 200) as Hn. rewrite Hr in Hn.
  set (q := (n / 200)%nat) in *.
  replace (n + 199)%nat with (q * 200 + 199)%nat by lia.
  rewrite Nat.div_add_l by lia. rewrite (Nat.div_small 199 200) by lia. lia.
Qed.

Section Runs.

Variables (B : Backend) (load_img : loader) (dims : layer -> nat * nat * nat).
Hypothesis Hfeat : fixed_feature_shapes B dims.
Hypothesis Hopt : optimizer_keeps_shape B.

Variables (alpha beta : fval) (Iterations : Z) (lr : fval).

Let state_after := train_state_after B load_img alpha beta Iterations lr.

(** What a run has done after [n] iterations. *)
Lemma train_run (n : nat) :
  exists st,
    state_after n = Returns st /\
    (exists h w, shape (generated_image B st) = [1; h; w; 3]%nat) /\
    length (costs B st) = n /\
    length (generated_images B st) = ceil_div n 200 /\
    (forall i, (i < n)%nat ->
       exists Jt Js Jc,
         loss_record B load_img alpha beta Iterations lr i
         = Returns (Z.of_nat i, Jt, Js, Jc) /\
         nth_error (costs B st) i = Some Jt) /\
    (forall k, (k < ceil_div n 200)%nat ->
       exists st', state_after (S (200 * k)) = Returns st' /\
                   nth_error (generated_images B st) k
                   = Some (generated_image B st')).
Proof.
  induction n as [|n IH].
  - eexists. split; [reflexivity|]. cbn.
    split; [eexists; eexists; reflexivity|].
    split; [reflexivity|]. split; [reflexivity|].
    split; intros i Hi; [lia|]. unfold ceil_div in Hi. cbn in Hi. lia.
  - destruct IH as (st & Hst & (h & w & Hshape) & Hcosts & Himgs & Hrec & Hsnap).
    destruct (train_step_returns B dims Hfeat Hopt
                (load_and_process_image load_img CONFIG.CONTENT_IMAGE)
                (load_and_process_image load_img CONFIG.STYLE_IMAGE)
                alpha beta Iterations n st h w Hshape)
      as ([[Jt Js] Jc] & st' & HJ & Hstep & Hshape' & Hc' & Hi' & _).
    assert (Hnext : state_after (S n) = Returns st').
    { unfold state_after, train_state_after. rewrite seq_S, train_loop_snoc.
      cbn [Nat.add]. unfold state_after, train_state_after in Hst. rewrite Hst.
      cbn [bind]. exact Hstep. }
    exists st'. split; [exact Hnext|].
    split; [eexists; eexists; exact Hshape'|].
    split; [rewrite Hc', length_app, Hcosts; cbn; lia|].
    split; [|split].
    + rewrite Hi', length_app, Himgs, ceil_div_succ.
      destruct (Nat.eqb (n mod 200) 0); reflexivity.
    + intros i Hi. destruct (Nat.eq_dec i n) as [-> | Hne].
      * exists Jt, Js, Jc. split.
        -- unfold loss_record. fold state_after. rewrite Hst. cbn [bind].
           rewrite HJ. reflexivity.
        -- rewrite Hc', nth_error_app2 by lia.
           rewrite Hcosts, Nat.sub_diag. reflexivity.
      * destruct (Hrec i ltac:(lia)) as (Jt' & Js' & Jc' & Hl & Hn).
        exists Jt', Js', Jc'. split; [exact Hl|].
        rewrite Hc', nth_error_app1 by lia. exact Hn.
    + intros k Hk. rewrite ceil_div_succ in Hk. rewrite Hi'.
      destruct (Nat.lt_ge_cases k (ceil_div n 200)) as [Hlt | Hge].
      * destruct (Hsnap k Hlt) as (st2 & Hst2 & Hn2).
        exists st2. split; [exact Hst2|].
        rewrite nth_error_app1 by lia. exact Hn2.
      * destruct (Nat.eqb_spec (n mod 200) 0) as [E | E]; [|lia].
        assert (k = ceil_div n 200) by lia. subst k.
        exists st'. split.
        -- rewrite ceil_div_checkpoint by assumption. exact Hnext.
        -- rewrite nth_error_app2 by lia.
           rewrite Himgs, Nat.sub_diag. reflexivity.
Qed.

(** The generated tensor after an iteration is what the optimiser makes
    of the gradient, whatever the gradient holds. *)
Lemma train_applies_gradient (n : nat) (g : Tensor) :
  gradient_at B load_img alpha beta Iterations lr n = Returns g ->
  exists st st',
    state_after n = Returns st /\
    state_after (S n) = Returns st' /\
    generated_image B st'
    = snd (apply_gradients B (optimizer B st) g (generated_image B st)).
Proof.
  intros Hgrad.
  destruct (train_run n) as (st & Hst & (h & w & Hshape) & _).
  destruct (train_step_returns B dims Hfeat Hopt
              (load_and_process_image load_img CONFIG.CONTENT_IMAGE)
              (load_and_process_image load_img CONFIG.STYLE_IMAGE)
              alpha beta Iterations n st h w Hshape)
    as (r & st' & _ & Hstep & _ & _ & _ & Hgen).
  exists st, st'. split; [exact Hst|]. split.
  - unfold state_after, train_state_after. rewrite seq_S, train_loop_snoc.
    cbn [Nat.add]. unfold state_after, train_state_after in Hst. rewrite Hst.
    cbn [bind]. exact Hstep.
  - unfold gradient_at in Hgrad. fold state_after in Hgrad.
    rewrite Hst in Hgrad. cbn [bind] in Hgrad.
    injection Hgrad as <-. exact Hgen.
Qed.

End Runs.

(** ** What one iteration leaves behind *)

Section LoopInversion.

Variables (B : Backend) (c s : Tensor) (alpha beta : fval).

Lemma train_step_inv (Iterations : Z) (i : nat) (st st' : loop_state B) :
  train_step B c s alpha beta Iterations i st = Returns st' ->
  exists Jt Js Jc,
    J_total_of B c s alpha beta (generated_image B st) = Returns (Jt, Js, Jc) /\
    generated_image B st'
    = snd (apply_gradients B (optimizer B st)
             (tape_gradient B (objective B c s alpha beta) (generated_image B st))
             (generated_image B st)) /\
    costs B st' = costs B st ++ [Jt] /\
    if Nat.eqb (i mod 200) 0
    then exists img,
           display_copy (generated_image B st') = Returns img /\
           generated_images B st'
           = generated_images B st ++ [generated_image B st'] /\
           output B st'
           = output B st ++ [Shown img;
                             Printed (Z.of_nat i + 1) Iterations Jt Js Jc]
    else generated_images B st' = generated_images B st /\
         output B st' = output B st.
Proof.
  unfold train_step.
  destruct (J_total_of B c s alpha beta (generated_image B st))
    as [[[Jt Js] Jc]|e]; cbn [bind]; [|discriminate].
  destruct (apply_gradients B (optimizer B st) _ (generated_image B st))
    as [opt' g'].
  destruct (Nat.eqb (i mod 200) 0).
  - destruct (display_copy g') as [img|e] eqn:Eimg; cbn [bind]; [|discriminate].
    intros H. injection H as <-. exists Jt, Js, Jc.
    cbn [generated_image costs generated_images output snd].
    split; [reflexivity|]. split; [reflexivity|]. split; [reflexivity|].
    exists img. now rewrite Eimg.
  - intros H. injection H as <-. exists Jt, Js, Jc.
    cbn [generated_image costs generated_images output snd].
    repeat split; reflexivity.
Qed.

Lemma train_loop_snoc_inv (Iterations : Z) (range : list nat) (i : nat)
  (st0 st' : loop_state B) :
  train_loop B c s alpha beta Iterations (range ++ [i]) st0 = Returns st' ->
  exists st,
    train_loop B c s alpha beta Iterations range st0 = Returns st /\
    train_step B c s alpha beta Iterations i st = Returns st'.
Proof.
  rewrite train_loop_snoc.
  destruct (train_loop B c s alpha beta Iterations range st0) as [st|e];
    cbn [bind]; [|discriminate].
  intros H. now exists st.
Qed.

(** The count of iterations is only printed. *)
Lemma train_step_same (I1 I2 : Z) (i : nat) (st1 st2 : loop_state B) :
  same_variables st1 st2 ->
  same_outcome (train_step B c s alpha beta I1 i st1)
               (train_step B c s alpha beta I2 i st2).
Proof.
  destruct st1 as [g1 o1 gs1 cs1 out1], st2 as [g2 o2 gs2 cs2 out2].
  unfold same_variables. cbn [generated_image optimizer generated_images costs].
  intros (<- & <- & <- & <-). unfold train_step.
  cbn [generated_image optimizer generated_images costs output].
  destruct (J_total_of B c s alpha beta g1) as [[[Jt Js] Jc]|e]; cbn [bind];
    [|reflexivity].
  destruct (apply_gradients B o1 _ g1) as [opt' g'].
  destruct (Nat.eqb (i mod 200) 0).
  - destruct (display_copy g') as [img|e]; cbn [bind same_outcome];
      [|reflexivity].
    unfold same_variables. cbn. auto.
  - cbn [same_outcome]. unfold same_variables. cbn. auto.
Qed.

Lemma train_loop_same (I1 I2 : Z) (range : list nat) (st1 st2 : loop_state B) :
  same_variables st1 st2 ->
  same_outcome (train_loop B c s alpha beta I1 range st1)
               (train_loop B c s alpha beta I2 range st2).
Proof.
  revert st1 st2. induction range as [|i range IH]; intros st1 st2 H.
  - exact H.
  - cbn [train_loop]. pose proof (train_step_same I1 I2 i st1 st2 H) as Hstep.
    destruct (train_step B c s alpha beta I1 i st1) as [a|e1],
             (train_step B c s alpha beta I2 i st2) as [b|e2];
      cbn [same_outcome bind] in *; try contradiction.
    + now apply IH.
    + exact Hstep.
Qed.

End LoopInversion.

Section RunInversion.

Variables (B : Backend) (load_img : loader).
Variables (alpha beta : fval) (lr : fval).

Lemma state_after_succ_inv (Iterations : Z) (n : nat) (st' : loop_state B) :
  train_state_after B load_img alpha beta Iterations lr (S n) = Returns st' ->
  exists st,
    train_state_after B load_img alpha beta Iterations lr n = Returns st /\
    train_step B (load_and_process_image load_img CONFIG.CONTENT_IMAGE)
                 (load_and_process_image load_img CONFIG.STYLE_IMAGE)
                 alpha beta Iterations n st
    = Returns st'.
Proof.
  unfold train_state_after. rewrite seq_S. cbn [Nat.add].
  apply train_loop_snoc_inv.
Qed.

(** A run that gets through [n] iterations has one loss and one snapshot
    per checkpoint to show for it. *)
Lemma run_lengths (Iterations : Z) (n : nat) (st : loop_state B) :
  train_state_after B load_img alpha beta Iterations lr n = Returns st ->
  length (costs B st) = n /\
  length (generated_images B st) = ceil_div n 200 /\
  length (output B st) = (2 * ceil_div n 200)%nat.
Proof.
  revert st. induction n as [|n IH]; intros st H.
  - injection H as <-. cbn. auto.
  - destruct (state_after_succ_inv _ _ _ H) as (st0 & H0 & Hstep).
    destruct (IH st0 H0) as (Hc & Hi & Ho).
    destruct (train_step_inv _ _ _ _ _ _ _ _ _ Hstep)
      as (Jt & Js & Jc & _ & _ & Hc' & Hrest).
    rewrite ceil_div_succ. rewrite Hc', length_app, Hc.
    split; [cbn; lia|].
    destruct (Nat.eqb (n mod 200) 0).
    + destruct Hrest as (img & _ & Hi' & Ho').
      rewrite Hi', Ho', !length_app, Hi, Ho. cbn. lia.
    + destruct Hrest as (Hi' & Ho'). rewrite Hi', Ho', Hi, Ho. lia.
Qed.

Lemma firstn_app_short {A : Type} (k : nat) (l1 l2 l : list A) :
  l = firstn k l1 -> length l = k -> l = firstn k (l1 ++ l2).
Proof.
  intros -> Hlen. rewrite length_firstn in Hlen.
  rewrite firstn_app. replace (k - length l1)%nat with 0%nat by lia.
  cbn. now rewrite app_nil_r.
Qed.

(** The state after [n] iterations, as seen from a later state of the same
    run. *)
Lemma run_prefix (Iterations : Z) (n m : nat) (stM : loop_state B) :
  (n <= m)%nat ->
  train_state_after B load_img alpha beta Iterations lr m = Returns stM ->
  exists st,
    train_state_after B load_img alpha beta Iterations lr n = Returns st /\
    costs B st = firstn n (costs B stM) /\
    generated_images B st = firstn (ceil_div n 200) (generated_images B stM).
Proof.
  intros Hle. revert stM. induction Hle as [|m Hle IH]; intros stM H.
  - exists stM. split; [exact H|].
    destruct (run_lengths _ _ _ H) as (Hc & Hi & _).
    rewrite <- Hc at 1. rewrite <- Hi. now rewrite !firstn_all.
  - destruct (state_after_succ_inv _ _ _ H) as (st1 & H1 & Hstep).
    destruct (IH st1 H1) as (st & Hst & Hc & Hi).
    destruct (run_lengths _ _ _ Hst) as (Lc & Li & _).
    destruct (train_step_inv _ _ _ _ _ _ _ _ _ Hstep)
      as (Jt & Js & Jc & _ & _ & Hc' & Hrest).
    exists st. split; [exact Hst|]. split.
    + rewrite Hc'. now apply firstn_app_short.
    + destruct (Nat.eqb (m mod 200) 0).
      * destruct Hrest as (img & _ & Hi' & _). rewrite Hi'.
        now apply firstn_app_short.
      * destruct Hrest as (Hi' & _). now rewrite Hi'.
Qed.

End RunInversion.

(** ** Non-finite values in a run *)

Lemma squared_differences_not_finite (x y : list fval) :
  length x = length y ->
  Exists (fun a => is_finite a = false) y ->
  Exists (fun a => is_finite a = false)
         (map (fun p => fsquare (fsub (fst p) (snd p))) (combine x y)).
Proof.
  revert x. induction y as [|b y IH]; intros [|a x] Hlen Hex;
    cbn in Hlen; try discriminate; inversion Hex; subst;
    cbn [combine map fst snd].
  - left. now apply fsquare_not_finite, fsub_not_finite_r.
  - right. apply IH; [lia | assumption].
Qed.

(** [content_cost] has no way round a value that is not finite. *)
Lemma content_cost_not_finite (B : Backend) (c g : Tensor) :
  shape (content_model B c) = shape (content_model B g) ->
  length (data (content_model B c)) = length (data (content_model B g)) ->
  ~ all_finite (content_model B g) ->
  exists v, content_cost B c g = Returns v /\ is_finite v = false.
Proof.
  intros Hs Hlen Hg. eexists. split; [now apply content_cost_value|].
  unfold Spec.content_loss, Spec.mean_squared_difference.
  apply fmul_not_finite_r, fdiv_not_finite_l, fsum_not_finite.
  apply squared_differences_not_finite; [exact Hlen|].
  now apply not_all_finite.
Qed.

Section PoisonedRuns.

Variables (B : Backend) (load_img : loader) (dims : layer -> nat * nat * nat).
Hypothesis Hfeat : fixed_feature_shapes B dims.

Variables (alpha beta : fval) (Iterations : Z) (lr : fval).

Let state_after := train_state_after B load_img alpha beta Iterations lr.
Let c := load_and_process_image load_img CONFIG.CONTENT_IMAGE.
Let s := load_and_process_image load_img CONFIG.STYLE_IMAGE.

(** The update of one iteration, seen from the two states around it. *)
Lemma state_after_update (n : nat) (st st' : loop_state B) :
  state_after n = Returns st -> state_after (S n) = Returns st' ->
  generated_image B st'
  = snd (apply_gradients B (optimizer B st)
           (tape_gradient B (objective B c s alpha beta) (generated_image B st))
           (generated_image B st)).
Proof.
  intros Hn HS.
  destruct (state_after_succ_inv _ _ _ _ _ _ _ _ HS) as (st0 & H0 & Hstep).
  unfold state_after in Hn. rewrite Hn in H0. injection H0 as <-.
  now destruct (train_step_inv _ _ _ _ _ _ _ _ _ Hstep)
    as (Jt & Js & Jc & _ & Hgen & _).
Qed.

(** Once the generated tensor is not finite, it stays so. *)
Lemma run_stays_non_finite (k : nat) (stk : loop_state B) :
  update_spreads_non_finite B ->
  state_after (S k) = Returns stk -> ~ all_finite (generated_image B stk) ->
  forall i st, (k < i)%nat -> state_after i = Returns st ->
    ~ all_finite (generated_image B st).
Proof.
  intros Hupd Hk Hbad i st Hi. revert st.
  induction Hi as [|i Hi IH]; intros st Hst.
  - rewrite Hk in Hst. injection Hst as <-. exact Hbad.
  - destruct (state_after_succ_inv _ _ _ _ _ _ _ _ Hst) as (st0 & H0 & _).
    rewrite (state_after_update i st0 st H0 Hst).
    apply Hupd. right. now apply IH.
Qed.

(** The total loss computed on a generated tensor that is not finite. *)
Lemma J_total_not_finite (g : Tensor) (Jt Js Jc : fval) :
  network_spreads_non_finite B ->
  ~ all_finite g ->
  J_total_of B c s alpha beta g = Returns (Jt, Js, Jc) ->
  is_finite Jt = false.
Proof.
  intros Hnet Hg HJ. unfold J_total_of in HJ.
  destruct (content_cost_not_finite B c g) as (v & Hv & Hbad).
  - pose proof (Hfeat content_layer c) as H1.
    pose proof (Hfeat content_layer g) as H2.
    unfold activation_map, content_model in *.
    destruct (dims content_layer) as [[h w] ch].
    destruct H1 as [-> _], H2 as [-> _]. reflexivity.
  - pose proof (Hfeat content_layer c) as H1.
    pose proof (Hfeat content_layer g) as H2.
    unfold activation_map, well_formed, content_model in *.
    destruct (dims content_layer) as [[h w] ch].
    destruct H1 as [E1 W1], H2 as [E2 W2]. rewrite W1, W2, E1, E2. reflexivity.
  - now apply Hnet.
  - rewrite Hv in HJ. cbn [bind] in HJ.
    destruct (style_cost B s g) as [Js'|e]; cbn [bind] in HJ; [|discriminate].
    injection HJ as <- _ _.
    now apply fadd_not_finite_l, fmul_not_finite_r.
Qed.

End PoisonedRuns.

(** ** What [train] returns *)

(** C1 (amended).  When every layer yields activation maps of a fixed shape
    and the optimiser keeps the shape of the variable, [train] returns; the
    loss history has one entry per iteration, the entry at position [i]
    being the number [J_total] that iteration [i] computed (and nothing
    else); the list of snapshots has [ceil(N / 200)] entries, the one at
    position [k] being the generated tensor at the end of iteration
    [200 k]. *)
Theorem train_history_and_snapshots
  (B : Backend) (load_img : loader) (dims : layer -> nat * nat * nat)
  (A1 A2 : Type) (content_image : A1) (style_image : A2)
  (alpha beta : fval) (Iterations : Z) (lr : fval) :
  fixed_feature_shapes B dims -> optimizer_keeps_shape B ->
  let N := Z.to_nat Iterations in
  exists imgs history,
    train B load_img content_image style_image alpha beta Iterations lr
    = Returns (imgs, history) /\
    length history = N /\
    length imgs = ceil_div N checkpoint_interval /\
    (forall i, (i < N)%nat ->
       exists Jt Js Jc,
         loss_record B load_img alpha beta Iterations lr i
         = Returns (Z.of_nat i, Jt, Js, Jc) /\
         nth_error history i = Some Jt) /\
    (forall k, (k < ceil_div N checkpoint_interval)%nat ->
       exists st,
         train_state_after B load_img alpha beta Iterations lr
           (S (checkpoint_interval * k)) = Returns st /\
         nth_error imgs k = Some (generated_image B st)).
Proof.
  intros Hfeat Hopt N.
  destruct (train_run B load_img dims Hfeat Hopt alpha beta Iterations lr N)
    as (st & Hst & _ & Hcosts & Himgs & Hrec & Hsnap).
  exists (generated_images B st), (costs B st).
  unfold train. fold N. rewrite Hst. cbn [bind].
  repeat split; assumption.
Qed.

(** C2 (amended).  With no iteration to run, [train] returns an empty list
    of snapshots and an empty loss history.  The generated tensor, which is
    not returned, holds the preprocessed content picture read from the
    configured path. *)
Theorem train_zero_iterations
  (B : Backend) (load_img : loader)
  (A1 A2 : Type) (content_image : A1) (style_image : A2)
  (alpha beta lr : fval) :
  train B load_img content_image style_image alpha beta 0 lr = Returns ([], []) /\
  exists st,
    train_state_after B load_img alpha beta 0 lr 0 = Returns st /\
    generated_image B st = load_and_process_image load_img CONFIG.CONTENT_IMAGE /\
    costs B st = [].
Proof.
  split; [reflexivity|]. eexists. split; [reflexivity|]. split; reflexivity.
Qed.

(** C3 (amended).  [train] has no check for non-finite values and no
    exception for them: under the shape conditions of C1, a run in which
    the gradient [g] of some iteration [k] holds a non-finite value hands
    [g] to the optimiser as it is, carries out every one of its iterations
    and returns, with one history entry per iteration, the loss of
    iteration [k] among them.  With an optimiser
    that leaves non-finite what a non-finite gradient or variable goes
    into, the generated tensor is not finite after iteration [k] and after
    every later one, and neither is any snapshot taken from iteration [k]
    on; when moreover the network yields non-finite content activations on
    such a tensor, every loss recorded after iteration [k] is not finite. *)
Theorem train_runs_through_non_finite_values
  (B : Backend) (load_img : loader) (dims : layer -> nat * nat * nat)
  (A1 A2 : Type) (content_image : A1) (style_image : A2)
  (alpha beta : fval) (Iterations : Z) (lr : fval) (k : nat) (g : Tensor) :
  fixed_feature_shapes B dims -> optimizer_keeps_shape B ->
  (k < Z.to_nat Iterations)%nat ->
  gradient_at B load_img alpha beta Iterations lr k = Returns g ->
  ~ all_finite g ->
  (exists st st',
     train_state_after B load_img alpha beta Iterations lr k = Returns st /\
     train_state_after B load_img alpha beta Iterations lr (S k) = Returns st' /\
     generated_image B st'
     = snd (apply_gradients B (optimizer B st) g (generated_image B st))) /\
  (forall i, (i <= Z.to_nat Iterations)%nat ->
     exists st, train_state_after B load_img alpha beta Iterations lr i = Returns st) /\
  exists imgs history,
    train B load_img content_image style_image alpha beta Iterations lr
    = Returns (imgs, history) /\
    length history = Z.to_nat Iterations /\
    (exists Jt Js Jc,
       loss_record B load_img alpha beta Iterations lr k
       = Returns (Z.of_nat k, Jt, Js, Jc) /\
       nth_error history k = Some Jt) /\
    (update_spreads_non_finite B ->
     (forall i st, (k < i)%nat ->
        train_state_after B load_img alpha beta Iterations lr i = Returns st ->
        ~ all_finite (generated_image B st)) /\
     (forall j, (k <= checkpoint_interval * j)%nat ->
        (j < ceil_div (Z.to_nat Iterations) checkpoint_interval)%nat ->
        exists t, nth_error imgs j = Some t /\ ~ all_finite t) /\
     (network_spreads_non_finite B ->
      forall i, (k < i < Z.to_nat Iterations)%nat ->
        exists v, nth_error history i = Some v /\ is_finite v = false)).
Proof.
  intros Hfeat Hopt Hk Hgrad Hbad.
  destruct (train_applies_gradient B load_img dims Hfeat Hopt alpha beta
              Iterations lr k g Hgrad) as (stk & stk' & Hstk & Hstk' & Hgen).
  split; [now exists stk, stk'|]. split.
  { intros i _.
    destruct (train_run B load_img dims Hfeat Hopt alpha beta Iterations lr i)
      as (st & Hst & _).
    now exists st. }
  destruct (train_run B load_img dims Hfeat Hopt alpha beta Iterations lr
              (Z.to_nat Iterations)) as (st & Hst & _ & Hcosts & Himgs & Hrec & Hsnap).
  exists (generated_images B st), (costs B st).
  unfold train. rewrite Hst. cbn [bind].
  split; [reflexivity|]. split; [exact Hcosts|].
  split; [exact (Hrec k Hk)|].
  intros Hupd.
  assert (Hg : g = tape_gradient B
                     (objective B (load_and_process_image load_img CONFIG.CONTENT_IMAGE)
                                  (load_and_process_image load_img CONFIG.STYLE_IMAGE)
                                  alpha beta)
                     (generated_image B stk)).
  { unfold gradient_at in Hgrad. rewrite Hstk in Hgrad. cbn [bind] in Hgrad.
    congruence. }
  assert (Hpoisoned : ~ all_finite (generated_image B stk')).
  { rewrite Hgen, Hg. apply Hupd. left. now rewrite <- Hg. }
  assert (Hlater : forall i st0, (k < i)%nat ->
            train_state_after B load_img alpha beta Iterations lr i = Returns st0 ->
            ~ all_finite (generated_image B st0))
    by (apply (run_stays_non_finite B load_img alpha beta Iterations lr k stk');
        assumption).
  split; [exact Hlater|]. split.
  - intros j Hj Hjn. unfold checkpoint_interval in Hj, Hjn.
    destruct (Hsnap j Hjn) as (st2 & Hst2 & Hn2).
    eexists. split; [exact Hn2|].
    apply (Hlater (S (200 * j)) st2); [lia | exact Hst2].
  - intros Hnet i [Hi Hin].
    destruct (Hrec i Hin) as (Jt & Js & Jc & Hl & Hn).
    exists Jt. split; [exact Hn|].
    unfold loss_record in Hl.
    destruct (train_state_after B load_img alpha beta Iterations lr i)
      as [sti|e] eqn:Hsti; cbn [bind] in Hl; [|discriminate].
    destruct (J_total_of B _ _ alpha beta (generated_image B sti))
      as [[[Jt' Js'] Jc']|e] eqn:HJ; cbn [bind] in Hl; [|discriminate].
    assert (Jt' = Jt) by congruence. subst Jt'.
    apply (J_total_not_finite B load_img dims Hfeat alpha beta
             (generated_image B sti) Jt Js' Jc' Hnet); [|exact HJ].
    now apply (Hlater i sti).
Qed.

(** C6.  [train] does not look at its two picture arguments: it reads the
    pictures at the two configured paths.  Two calls that differ in those
    arguments, and in the files behind any other path, return the same. *)
Theorem train_ignores_image_arguments
  (B : Backend) (files1 files2 : loader)
  (A1 A2 A1' A2' : Type)
  (content_image : A1) (style_image : A2)
  (content_image' : A1') (style_image' : A2')
  (alpha beta : fval) (Iterations : Z) (lr : fval) :
  files1 CONFIG.CONTENT_IMAGE = files2 CONFIG.CONTENT_IMAGE ->
  files1 CONFIG.STYLE_IMAGE = files2 CONFIG.STYLE_IMAGE ->
  train B files1 content_image style_image alpha beta Iterations lr
  = train B files2 content_image' style_image' alpha beta Iterations lr.
Proof.
  intros Hc Hs.
  unfold train, train_state_after, train_init, load_and_process_image.
  now rewrite Hc, Hs.
Qed.

(** ** Indexed maps and reversed axes *)

Lemma map_fst_combine_seq {A : Type} (l : list A) (s : nat) :
  map fst (combine (seq s (length l)) l) = seq s (length l).
Proof.
  revert s. induction l as [|x l IH]; intros s; cbn; [reflexivity|].
  now rewrite IH.
Qed.

Lemma length_imap (g : nat -> fval -> fval) (l : list fval) :
  length (imap g l) = length l.
Proof.
  unfold imap. rewrite length_map, length_combine, length_seq. lia.
Qed.

Lemma imap_imap (g1 g2 : nat -> fval -> fval) (l : list fval) :
  imap g2 (imap g1 l) = imap (fun k v => g2 k (g1 k v)) l.
Proof.
  unfold imap at 1. rewrite length_imap. unfold imap.
  rewrite <- (map_fst_combine_seq l 0) at 1.
  now rewrite combine_map_both, map_map.
Qed.

Lemma imap_ext (g1 g2 : nat -> fval -> fval) (l : list fval) :
  (forall k v, g1 k v = g2 k v) -> imap g1 l = imap g2 l.
Proof. intros H. unfold imap. apply map_ext. intros [k v]. apply H. Qed.

Lemma nth_combine_seq {A : Type} (l : list A) (s k : nat) (d : A) :
  (k < length l)%nat ->
  nth k (combine (seq s (length l)) l) (0%nat, d) = ((s + k)%nat, nth k l d).
Proof.
  revert s k. induction l as [|x l IH]; intros s k Hk; cbn in *; [lia|].
  destruct k as [|k]; [now rewrite Nat.add_0_r|].
  rewrite IH by lia. f_equal. lia.
Qed.

Lemma nth_imap (g : nat -> fval -> fval) (l : list fval) (k : nat) (d : fval) :
  (k < length l)%nat -> nth k (imap g l) d = g k (nth k l d).
Proof.
  intros Hk. unfold imap.
  rewrite (nth_indep _ d (g 0%nat d))
    by (rewrite length_map, length_combine, length_seq; lia).
  rewrite (map_nth (fun p => g (fst p) (snd p)) _ (0%nat, d)).
  now rewrite nth_combine_seq.
Qed.

Lemma length_reverse_axis (inner d : nat) (l : list fval) :
  length (reverse_axis inner d l) = length l.
Proof. unfold reverse_axis. now rewrite length_map, length_seq. Qed.

Lemma nth_reverse_axis (inner d : nat) (l : list fval) (k : nat) (dflt : fval) :
  (k < length l)%nat ->
  nth k (reverse_axis inner d l) dflt = nth (mirror inner d k) l (Fin 0).
Proof.
  intros Hk. unfold reverse_axis.
  rewrite (nth_indep _ dflt (nth (mirror inner d 0) l (Fin 0)))
    by (rewrite length_map, length_seq; lia).
  rewrite (map_nth (fun k => nth (mirror inner d k) l (Fin 0))).
  now rewrite seq_nth.
Qed.

(** The three additions of [deprocess_image], taken together. *)
Lemma three_additions (inner d : nat) (l : list fval) :
  map_on_axis inner d 2 (fun v => fadd v (fin 123.68))
    (map_on_axis inner d 1 (fun v => fadd v (fin 116.779))
       (map_on_axis inner d 0 (fun v => fadd v (fin 103.939)) l))
  = imap (add_means inner d) l.
Proof.
  unfold map_on_axis. rewrite !imap_imap. apply imap_ext. intros k v.
  unfold add_means. destruct (axis_pos inner d k) as [|[|[|n]]]; reflexivity.
Qed.

(** ** In-place effect of [deprocess_image] *)

Lemma upd_same (h : heap) (x : ref) (a : Tensor) : upd h x a x = a.
Proof. unfold upd. now rewrite Nat.eqb_refl. Qed.

Lemma upd_other (h : heap) (x y : ref) (a : Tensor) : y <> x -> upd h x a y = h y.
Proof. intros H. unfold upd. apply Nat.eqb_neq in H. now rewrite H. Qed.

Lemma iadd_axis2_ok (h : heap) (x : ref) (c : nat) (m : Q)
  (d0 d1 d2 : nat) (rest : list nat) :
  shape (h x) = d0 :: d1 :: d2 :: rest -> (c < d2)%nat ->
  iadd_axis2 x c m h
  = (Returns tt,
     upd h x (mkTensor (shape (h x))
                (map_on_axis (numel rest) d2 c (fun v => fadd v (fin m))
                             (data (h x))))).
Proof.
  intros Hs Hc. unfold iadd_axis2. rewrite Hs.
  apply Nat.ltb_lt in Hc. now rewrite Hc.
Qed.

Lemma deprocess_image_run (h : heap) (x : ref) (d0 d1 d2 : nat) (rest : list nat) :
  shape (h x) = d0 :: d1 :: d2 :: rest -> (3 <= d2)%nat ->
  exists h',
    deprocess_image x h
    = (Returns (np.astype_uint8
                  (np.clip (mkTensor (shape (h x))
                              (reverse_axis (numel rest) d2
                                 (data (shifted (h x) (numel rest) d2))))
                           0 255)),
       h') /\
    h' x = shifted (h x) (numel rest) d2 /\
    (forall y, y <> x -> h' y = h y).
Proof.
  intros Hs Hd. unfold deprocess_image, sbind.
  rewrite (iadd_axis2_ok h x 0 _ d0 d1 d2 rest Hs) by lia.
  set (h1 := upd h x _).
  assert (Hs1 : shape (h1 x) = d0 :: d1 :: d2 :: rest)
    by (unfold h1; now rewrite upd_same).
  rewrite (iadd_axis2_ok h1 x 1 _ d0 d1 d2 rest Hs1) by lia.
  set (h2 := upd h1 x _).
  assert (Hs2 : shape (h2 x) = d0 :: d1 :: d2 :: rest)
    by (unfold h2; now rewrite upd_same).
  rewrite (iadd_axis2_ok h2 x 2 _ d0 d1 d2 rest Hs2) by lia.
  set (h3 := upd h2 x _).
  assert (H3 : h3 x = shifted (h x) (numel rest) d2).
  { unfold h3. rewrite upd_same. unfold h2 at 2. rewrite upd_same.
    unfold h1 at 2. rewrite upd_same. cbn [data].
    unfold h2 at 1. rewrite upd_same. unfold h1 at 1. rewrite upd_same.
    cbn [shape data]. unfold shifted. now rewrite three_additions. }
  exists h3. split; [|split].
  - unfold read, lift, flip_axis2, sret. rewrite H3.
    unfold shifted. cbn [shape data]. rewrite Hs. reflexivity.
  - exact H3.
  - intros y Hy. unfold h3, h2, h1. now rewrite !upd_other.
Qed.

(** C10.  On an array with at least three axes and at least three
    channels on the third, [deprocess_image] writes into its argument: after
    the call the caller's array holds its old elements with the channel
    means added (every other array is as before), and the returned bytes
    are computed from that shifted array.  In an exact format the caller's
    array has changed whenever its first element was finite. *)
Theorem deprocess_image_shifts_its_argument
  (h : heap) (x : ref) (d0 d1 d2 : nat) (rest : list nat) :
  shape (h x) = d0 :: d1 :: d2 :: rest -> (3 <= d2)%nat ->
  let inner := numel rest in
  exists out h',
    deprocess_image x h = (Returns out, h') /\
    h' x = shifted (h x) inner d2 /\
    (forall k, (k < length (data (h x)))%nat ->
       nth k (data (h' x)) (Fin 0)
       = add_means inner d2 k (nth k (data (h x)) (Fin 0))) /\
    (forall y, y <> x -> h' y = h y) /\
    out = np.astype_uint8
            (np.clip (mkTensor (shape (h' x)) (reverse_axis inner d2 (data (h' x))))
                     0 255) /\
    (Exact R -> forall q tl, data (h x) = Fin q :: tl -> h' x <> h x).
Proof.
  intros Hs Hd inner.
  destruct (deprocess_image_run h x d0 d1 d2 rest Hs Hd) as (h' & Hrun & Hx & Hframe).
  eexists. exists h'. split; [exact Hrun|]. split; [exact Hx|].
  split; [|split; [exact Hframe|split]].
  - intros k Hk. rewrite Hx. unfold shifted. cbn [data]. now apply nth_imap.
  - rewrite Hx. reflexivity.
  - intros E q tl Hdata Heq. rewrite Hx in Heq.
    apply (f_equal data) in Heq. unfold shifted in Heq. cbn [data] in Heq.
    apply (f_equal (fun l => nth 0 l (Fin 0))) in Heq.
    rewrite nth_imap in Heq by (rewrite Hdata; cbn; lia).
    rewrite Hdata in Heq. cbn [nth] in Heq.
    unfold add_means, axis_pos in Heq.
    rewrite Nat.Div0.div_0_l, Nat.Div0.mod_0_l in Heq.
    rewrite (fin_of_exact E 103.939), fadd_Fin, (fin_of_exact E) in Heq.
    assert (Hred : Qred (q + Qred 103.939) = q) by congruence.
    assert (Hq : q + 103.939 == q).
    { transitivity (Qred (q + Qred 103.939)).
      - rewrite !Qred_correct. reflexivity.
      - rewrite Hred. reflexivity. }
    lra.
Qed.

(** ** Round trip of the image codec *)

Lemma Qred_whole (z : Z) : Qred (z # 1) = z # 1.
Proof. apply Qcanon.Qred_identity. cbn. apply Z.gcd_1_r. Qed.

Lemma three_subtractions (inner d : nat) (l : list fval) :
  map_on_axis inner d 2 (fun v => fsub v (fin 123.68))
    (map_on_axis inner d 1 (fun v => fsub v (fin 116.779))
       (map_on_axis inner d 0 (fun v => fsub v (fin 103.939)) l))
  = imap (sub_means inner d) l.
Proof.
  unfold map_on_axis. rewrite !imap_imap. apply imap_ext. intros k v.
  unfold sub_means. destruct (axis_pos inner d k) as [|[|[|n]]]; reflexivity.
Qed.

Lemma fclip_byte (z : Z) : (0 <= z <= 255)%Z -> fclip 0 255 (of_Z z) = of_Z z.
Proof.
  intros Hz. unfold fclip, of_Z.
  destruct (Qlt_le_dec (z # 1) 0) as [H | _].
  - unfold Qlt in H. cbn in H. lia.
  - destruct (Qlt_le_dec 255 (z # 1)) as [H | _]; [|reflexivity].
    unfold Qlt in H. cbn in H. lia.
Qed.

Lemma to_uint8_byte (z : Z) : (0 <= z <= 255)%Z -> to_uint8 (of_Z z) = z.
Proof.
  intros Hz. unfold to_uint8, of_Z. cbn [Qnum Qden].
  rewrite Z.quot_1_r. apply Z.mod_small. lia.
Qed.

(** Reversing an axis of three channels, one element per step. *)
Lemma mirror_channels (k m : nat) :
  (k < m * 3)%nat ->
  (mirror 1 3 k < m * 3)%nat /\ mirror 1 3 (mirror 1 3 k) = k.
Proof.
  intros Hk. unfold mirror, axis_pos. rewrite !Nat.div_1_r, !Nat.mul_1_r.
  pose proof (Nat.div_mod_eq k 3) as Hdm.
  pose proof (Nat.mod_upper_bound k 3 ltac:(lia)) as Hr.
  assert (Hm : ((k - k mod 3 + (3 - 1 - k mod 3)) mod 3 = 2 - k mod 3)%nat).
  { symmetry. apply (Nat.mod_unique _ 3 (k / 3)); lia. }
  rewrite Hm. lia.
Qed.

(** The bytes [deprocess_image] computes from a preprocessed picture. *)
Lemma round_trip_bytes (bs : list Z) (m : nat) :
  length bs = (m * 3)%nat ->
  map to_uint8
    (map (fclip 0 255)
       (reverse_axis 1 3
          (imap (add_means 1 3)
             (imap (sub_means 1 3) (reverse_axis 1 3 (map of_Z bs))))))
  = restored_bytes bs.
Proof.
  intros Hlen. unfold restored_bytes.
  apply (nth_ext _ _ 0%Z 0%Z).
  - now rewrite !length_map, length_reverse_axis, !length_imap,
      length_reverse_axis, length_map, length_combine, length_seq, Nat.min_id.
  - intros k Hk.
    rewrite !length_map, length_reverse_axis, !length_imap,
      length_reverse_axis, length_map in Hk.
    destruct (mirror_channels k m ltac:(lia)) as [Hmk Hmm].
    rewrite (nth_indep _ 0%Z (to_uint8 (fclip 0 255 (Fin 0))))
      by (rewrite !length_map, length_reverse_axis, !length_imap,
            length_reverse_axis, length_map; lia).
    rewrite (map_nth to_uint8), (map_nth (fclip 0 255)).
    rewrite nth_reverse_axis
      by (rewrite !length_imap, length_reverse_axis, length_map; lia).
    rewrite imap_imap, nth_imap
      by (rewrite length_reverse_axis, length_map; lia).
    rewrite nth_reverse_axis by (rewrite length_map; lia).
    rewrite Hmm.
    rewrite (nth_indep _ (Fin 0) (of_Z 0)) by (rewrite length_map; lia).
    rewrite (map_nth of_Z).
    rewrite (nth_indep (map _ (combine _ bs)) 0%Z (restored_byte 0 0))
      by (rewrite length_map, length_combine, length_seq; lia).
    rewrite (map_nth (fun p => restored_byte (fst p) (snd p)) _ (0%nat, 0%Z)).
    rewrite nth_combine_seq by lia. reflexivity.
Qed.

(** What the codec does to a decoded picture. *)
Lemma codec_round_trip (p : Picture) (x : ref) :
  length (pic_bytes p) = (pic_height p * pic_width p * 3)%nat ->
  (forall h : heap,
     h x = preprocess_input (img_to_array p) ->
     fst (deprocess_image x h)
     = Returns (mkByteArray [pic_height p; pic_width p; 3%nat]
                            (restored_bytes (pic_bytes p)))) /\
  (forall h : heap,
     h x = np.expand_dims (preprocess_input (img_to_array p)) ->
     fst (display_image x h)
     = Returns (mkByteArray [pic_height p; pic_width p; 3%nat]
                            (restored_bytes (pic_bytes p)))).
Proof.
  intros Hlen.
  assert (Hcore : forall h0 : heap,
            h0 x = preprocess_input (img_to_array p) ->
            fst (deprocess_image x h0)
            = Returns (mkByteArray [pic_height p; pic_width p; 3%nat]
                                   (restored_bytes (pic_bytes p)))).
  { intros h0 Hx.
    assert (Hs : shape (h0 x) = [pic_height p; pic_width p; 3%nat])
      by (rewrite Hx; reflexivity).
    destruct (deprocess_image_run h0 x _ _ _ _ Hs (le_n 3)) as (h' & -> & _).
    cbn [fst numel fold_right]. f_equal.
    unfold np.astype_uint8, np.clip, shifted. cbn [shape data bshape bytes].
    rewrite Hs. f_equal.
    rewrite Hx. unfold preprocess_input, img_to_array. cbn [shape data last].
    rewrite three_subtractions.
    now apply (round_trip_bytes _ (pic_height p * pic_width p)). }
  split; [exact Hcore|].
  intros h Hx. unfold display_image. rewrite Hx.
  unfold np.expand_dims.
  cbn [shape data preprocess_input img_to_array Nat.eqb].
  set (h1 := upd h x _).
  specialize (Hcore h1).
  destruct (deprocess_image x h1) as [r h2]. cbn [fst] in *.
  apply Hcore. unfold h1. rewrite upd_same. reflexivity.
Qed.

(** * Properties of exact formats *)

Section ExactFormats.

Context {E : Exact R}.

Lemma fin_exact (q : Q) : fin q = Fin (Qred q).
Proof. now apply fin_of_exact. Qed.

(** ** Round trip of the image codec, continued *)

Lemma add_after_sub (z : Z) (m : Q) :
  fadd (fsub (of_Z z) (fin m)) (fin m) = of_Z z.
Proof.
  unfold of_Z. rewrite !fin_exact, fsub_Fin, fin_exact, fadd_Fin, fin_exact.
  f_equal. rewrite <- (Qred_whole z) at 2.
  apply Qred_complete. rewrite !Qred_correct. ring.
Qed.

Lemma add_means_sub_means (inner d k : nat) (z : Z) :
  add_means inner d k (sub_means inner d k (of_Z z)) = of_Z z.
Proof.
  unfold add_means, sub_means.
  destruct (axis_pos inner d k) as [|[|[|n]]];
    (apply add_after_sub || reflexivity).
Qed.

Lemma restored_bytes_exact (bs : list Z) :
  Forall (fun b => (0 <= b <= 255)%Z) bs -> restored_bytes bs = bs.
Proof.
  intros Hbytes. unfold restored_bytes. generalize 0%nat.
  induction Hbytes as [|z bs Hz Hbs IH]; intros s; cbn [length seq combine map];
    [reflexivity|].
  cbn [fst snd]. rewrite IH. f_equal. unfold restored_byte.
  now rewrite add_means_sub_means, fclip_byte, to_uint8_byte.
Qed.

(** ** The style cost against the specification *)

Lemma of_nat_Q (n : nat) : of_nat n = Fin (inject_Z (Z.of_nat n)).
Proof. reflexivity. Qed.

Lemma inject_nat_pos (n : nat) : (0 < n)%nat -> 0 < inject_Z (Z.of_nat n).
Proof. intros H. unfold Qlt. simpl. lia. Qed.

Lemma inject_nat_zero (n : nat) : n = 0%nat -> inject_Z (Z.of_nat n) == 0.
Proof. intros ->. reflexivity. Qed.

(** The constant of [style_cost], written out in one division. *)
Lemma style_scale_normaliser (n_H n_W n_C : nat) :
  style_scale n_H n_W n_C = Spec.normaliser n_C (n_H * n_W).
Proof.
  unfold style_scale, Spec.normaliser, np_square. rewrite !of_nat_Q.
  set (P := (n_H * n_W)%nat).
  assert (Hq : fmul (fdiv (Fin 1) (Fin 4)) (Fin 1) = Fin (1 # 4)).
  { rewrite fdiv_Fin_pos by reflexivity. rewrite fin_exact, fmul_Fin, fin_exact.
    reflexivity. }
  rewrite Hq.
  destruct (Nat.eq_dec n_C 0) as [HC | HC].
  - subst n_C.
    rewrite (fdiv_Fin_zero (1 # 4)) by (reflexivity || apply inject_nat_zero; lia).
    rewrite (fdiv_Fin_zero 1) by (reflexivity || apply inject_nat_zero; lia).
    cbn [fmul signed_inf]. change (1 ?= 0) with Gt. cbn [signed_inf fdiv].
    destruct (inject_Z (Z.of_nat (P * P)) ?= 0) eqn:E0; try reflexivity.
    apply Qlt_alt in E0. unfold Qlt in E0. simpl in E0. lia.
  - assert (HCC : 0 < inject_Z (Z.of_nat (n_C * n_C))) by (apply inject_nat_pos; nia).
    rewrite (fdiv_Fin_pos (1 # 4)) by assumption.
    rewrite fin_exact, fmul_Fin, fin_exact.
    destruct (Nat.eq_dec P 0) as [HP | HP].
    + rewrite HP.
      rewrite fdiv_Fin_zero; [| |reflexivity].
      * rewrite fdiv_Fin_zero; [reflexivity | reflexivity |].
        apply inject_nat_zero. lia.
      * rewrite !Qred_correct. apply Qmult_lt_0_compat; [|reflexivity].
        apply Qlt_shift_div_l; [assumption | reflexivity].
    + assert (HPP : 0 < inject_Z (Z.of_nat (P * P))) by (apply inject_nat_pos; nia).
      assert (Hall : 0 < inject_Z (Z.of_nat (4 * (n_C * n_C) * (P * P))))
        by (apply inject_nat_pos; nia).
      rewrite !fdiv_Fin_pos by assumption. apply fin_eq.
      rewrite !Qred_correct.
      rewrite !Nat2Z.inj_mul, !inject_Z_mult. change (inject_Z (Z.of_nat 4)) with 4.
      rewrite !Nat2Z.inj_mul, !inject_Z_mult in HCC, HPP.
      field. split; intros E0; [rewrite E0 in HPP | rewrite E0 in HCC]; lra.
Qed.

Lemma style_cost_terms_spec (B : Backend) (dims : layer -> nat * nat * nat)
  (style_image generated_image : Tensor) :
  fsum (style_cost_terms B dims style_image generated_image)
  = Spec.style_loss (style_inputs B dims style_image generated_image).
Proof.
  unfold Spec.style_loss, style_cost_terms, style_inputs. rewrite map_map.
  f_equal. apply map_ext. intros [l wt]. cbn [fst snd].
  destruct (dims l) as [[h w] c]. now rewrite style_scale_normaliser.
Qed.

End ExactFormats.

(** C4.  When, at every style layer, the style and the generated picture
    have activation maps of one shape (1, h, w, c), [style_cost] returns the
    sum over the five layers of: the layer's weight, times the constant the
    script computes, times the mean squared difference of the two Gram
    matrices, the Gram matrix of a map being its (channels by positions)
    matrix times the transpose of it.  In an exact format the constant is
    1/(4 c^2 (h w)^2), and the sum is the style loss of the
    specification. *)
Theorem style_cost_weighted_gram_differences
  (B : Backend) (dims : layer -> nat * nat * nat)
  (style_image generated_image : Tensor) :
  (forall l, In l style_layers ->
     activation_map (layer_output B l style_image) (dims l) /\
     activation_map (layer_output B l generated_image) (dims l)) ->
  style_cost B style_image generated_image
  = Returns (fsum (style_cost_terms B dims style_image generated_image)) /\
  (Exact R ->
   (forall n_H n_W n_C,
      style_scale n_H n_W n_C = Spec.normaliser n_C (n_H * n_W)) /\
   style_cost B style_image generated_image
   = Returns (Spec.style_loss (style_inputs B dims style_image generated_image))).
Proof.
  intros H. split; [now apply style_cost_value|].
  intros E. split; [apply style_scale_normaliser|].
  rewrite (style_cost_value B dims) by assumption.
  now rewrite style_cost_terms_spec.
Qed.

(** C9.  Deprocessing undoes preprocessing up to the rounding of the
    format: on the preprocessed array of a decoded picture,
    [deprocess_image] returns, offset by offset, the byte of the picture
    with the mean of its channel subtracted and added again, clipped to
    0..255 and cut to an integer; so does [display_image] on what
    [load_and_process_image] returns for the file.  In an exact format these
    are the bytes of the picture. *)
Theorem deprocess_inverts_preprocess
  (load_img : loader) (image_path : string) (h : heap) (x : ref) :
  let p := load_img image_path in
  valid_picture p ->
  (h x = preprocess_input (img_to_array p) ->
   fst (deprocess_image x h)
   = Returns (mkByteArray [pic_height p; pic_width p; 3%nat]
                          (restored_bytes (pic_bytes p)))) /\
  (h x = load_and_process_image load_img image_path ->
   fst (display_image x h)
   = Returns (mkByteArray [pic_height p; pic_width p; 3%nat]
                          (restored_bytes (pic_bytes p)))) /\
  (Exact R -> restored_bytes (pic_bytes p) = pic_bytes p).
Proof.
  intros p [Hlen Hbytes].
  destruct (codec_round_trip p x Hlen) as [Hde Hdi].
  split; [apply Hde|]. split; [apply Hdi|].
  intros E. now apply restored_bytes_exact.
Qed.

(** * Further properties of the script *)

(** ** Arrays that [deprocess_image] cannot index *)

(** X1.  On an array with fewer than three axes [deprocess_image] raises
    [IndexError] at its first statement and has written nothing. *)
Theorem deprocess_image_needs_three_axes (h : heap) (x : ref) :
  (length (shape (h x)) < 3)%nat ->
  deprocess_image x h = (Raises IndexError, h).
Proof.
  intros Hr. unfold deprocess_image, sbind, iadd_axis2.
  destruct (shape (h x)) as [|d0 [|d1 [|d2 rest]]]; cbn in Hr;
    try reflexivity; lia.
Qed.

Lemma one_addition (inner : nat) (l : list fval) :
  map_on_axis inner 1 0 (fun v => fadd v (fin 103.939)) l
  = imap (add_means inner 1) l.
Proof.
  unfold map_on_axis. apply imap_ext. intros k v.
  unfold add_means, axis_pos. now rewrite Nat.mod_1_r.
Qed.

Lemma two_additions (inner : nat) (l : list fval) :
  map_on_axis inner 2 1 (fun v => fadd v (fin 116.779))
    (map_on_axis inner 2 0 (fun v => fadd v (fin 103.939)) l)
  = imap (add_means inner 2) l.
Proof.
  unfold map_on_axis. rewrite imap_imap. apply imap_ext. intros k v.
  unfold add_means, axis_pos.
  pose proof (Nat.mod_upper_bound (k / inner) 2 ltac:(lia)) as Hr.
  destruct ((k / inner) mod 2)%nat as [|[|n]]; [reflexivity | reflexivity | lia].
Qed.

(** X2.  On an array with fewer than three channels on its third axis
    [deprocess_image] raises [IndexError], but not before it has written:
    with one or two channels the caller's array is left with the means of
    the channels it has added, and only an empty axis leaves it as it
    was. *)
Theorem deprocess_image_fails_after_writing
  (h : heap) (x : ref) (d0 d1 d2 : nat) (rest : list nat) :
  shape (h x) = d0 :: d1 :: d2 :: rest -> (d2 < 3)%nat ->
  exists h',
    deprocess_image x h = (Raises IndexError, h') /\
    (forall y, y <> x -> h' y = h y) /\
    (d2 = 0%nat -> h' = h) /\
    ((0 < d2)%nat ->
     h' x = shifted (h x) (numel rest) d2 /\
     forall v tl, data (h x) = v :: tl ->
       nth 0 (data (h' x)) (Fin 0) = fadd v (fin 103.939)).
Proof.
  intros Hs Hd. unfold deprocess_image, sbind.
  destruct d2 as [|[|[|d2]]]; [| | |lia].
  - exists h. unfold iadd_axis2. rewrite Hs. cbn [Nat.ltb Nat.leb].
    split; [reflexivity|]. split; [reflexivity|]. split; [reflexivity|]. lia.
  - rewrite (iadd_axis2_ok h x 0 _ d0 d1 1 rest Hs) by lia.
    set (h1 := upd h x _).
    assert (Hs1 : shape (h1 x) = d0 :: d1 :: 1%nat :: rest)
      by (unfold h1; now rewrite upd_same).
    assert (H1 : h1 x = shifted (h x) (numel rest) 1).
    { unfold h1. rewrite upd_same. unfold shifted. now rewrite one_addition. }
    exists h1. split; [|split; [|split; [lia|]]].
    + unfold iadd_axis2. rewrite Hs1. reflexivity.
    + intros y Hy. unfold h1. now rewrite upd_other.
    + intros _. split; [exact H1|]. intros v tl Hdata.
      rewrite H1. unfold shifted. cbn [data].
      rewrite nth_imap by (rewrite Hdata; cbn; lia).
      rewrite Hdata. cbn [nth]. unfold add_means, axis_pos.
      now rewrite Nat.mod_1_r.
  - rewrite (iadd_axis2_ok h x 0 _ d0 d1 2 rest Hs) by lia.
    set (h1 := upd h x _).
    assert (Hs1 : shape (h1 x) = d0 :: d1 :: 2%nat :: rest)
      by (unfold h1; now rewrite upd_same).
    rewrite (iadd_axis2_ok h1 x 1 _ d0 d1 2 rest Hs1) by lia.
    set (h2 := upd h1 x _).
    assert (Hs2 : shape (h2 x) = d0 :: d1 :: 2%nat :: rest)
      by (unfold h2; now rewrite upd_same).
    assert (H2 : h2 x = shifted (h x) (numel rest) 2).
    { unfold h2. rewrite upd_same. unfold h1 at 2. rewrite upd_same.
      unfold h1 at 1. rewrite upd_same. cbn [shape data].
      unfold shifted. now rewrite two_additions. }
    exists h2. split; [|split; [|split; [lia|]]].
    + unfold iadd_axis2. rewrite Hs2. reflexivity.
    + intros y Hy. unfold h2, h1. now rewrite !upd_other.
    + intros _. split; [exact H2|]. intros v tl Hdata.
      rewrite H2. unfold shifted. cbn [data].
      rewrite nth_imap by (rewrite Hdata; cbn; lia).
      rewrite Hdata. cbn [nth]. unfold add_means, axis_pos.
      now rewrite Nat.Div0.div_0_l, Nat.Div0.mod_0_l.
Qed.

(** ** [display_image] and the array of its caller *)

(** X3.  On an array with four axes [display_image] raises [ValueError],
    with nothing written, unless the first axis has length one.  When it
    has, and there are at least three channels, the picture shown is what
    [deprocess_image] makes of the squeezed array; the squeezed array being
    a view, the caller's array keeps its four axes and is left with the
    channel means added along its last axis. *)
Theorem display_image_writes_through_the_view
  (h : heap) (x : ref) (d0 d1 d2 d3 : nat) :
  shape (h x) = [d0; d1; d2; d3] ->
  (d0 <> 1%nat -> display_image x h = (Raises ValueError, h)) /\
  (d0 = 1%nat -> (3 <= d3)%nat ->
   exists out h',
     display_image x h = (Returns out, h') /\
     fst (deprocess_image x (upd h x (mkTensor [d1; d2; d3] (data (h x)))))
     = Returns out /\
     bshape out = [d1; d2; d3] /\
     h' x = mkTensor [1%nat; d1; d2; d3] (imap (add_means 1 d3) (data (h x))) /\
     (forall y, y <> x -> h' y = h y)).
Proof.
  intros Hs. split.
  - intros Hd. unfold display_image. rewrite Hs.
    apply Nat.eqb_neq in Hd. now rewrite Hd.
  - intros -> Hd. unfold display_image. rewrite Hs. cbn [Nat.eqb].
    set (h1 := upd h x _).
    assert (Hs1 : shape (h1 x) = [d1; d2; d3]) by (unfold h1; now rewrite upd_same).
    destruct (deprocess_image_run h1 x d1 d2 d3 [] Hs1 Hd) as (h' & Hrun & Hx & Hframe).
    rewrite Hrun. cbv beta iota. eexists. eexists.
    split; [reflexivity|]. split; [reflexivity|]. split; [|split].
    + cbn [np.astype_uint8 np.clip bshape shape]. exact Hs1.
    + rewrite upd_same, Hx. unfold shifted, h1. rewrite upd_same. reflexivity.
    + intros y Hy. rewrite upd_other by assumption.
      rewrite Hframe by assumption. unfold h1. now rewrite upd_other.
Qed.

(** ** Repeated calls *)

(** X4.  [deprocess_image] is not idempotent on its argument: a second call
    on the same array finds the means already added, adds them again, and
    computes its bytes from the array shifted twice. *)
Theorem deprocess_image_twice_shifts_twice
  (h : heap) (x : ref) (d0 d1 d2 : nat) (rest : list nat) :
  shape (h x) = d0 :: d1 :: d2 :: rest -> (3 <= d2)%nat ->
  let inner := numel rest in
  exists out1 h1 out2 h2,
    deprocess_image x h = (Returns out1, h1) /\
    deprocess_image x h1 = (Returns out2, h2) /\
    h2 x = shifted (shifted (h x) inner d2) inner d2 /\
    (forall k, (k < length (data (h x)))%nat ->
       nth k (data (h2 x)) (Fin 0)
       = add_means inner d2 k (add_means inner d2 k (nth k (data (h x)) (Fin 0)))) /\
    out2 = np.astype_uint8
             (np.clip (mkTensor (shape (h x)) (reverse_axis inner d2 (data (h2 x))))
                      0 255) /\
    (forall y, y <> x -> h2 y = h y).
Proof.
  intros Hs Hd inner.
  destruct (deprocess_image_run h x d0 d1 d2 rest Hs Hd) as (h1 & Hrun1 & Hx1 & Hf1).
  assert (Hs1 : shape (h1 x) = d0 :: d1 :: d2 :: rest) by (rewrite Hx1; exact Hs).
  destruct (deprocess_image_run h1 x d0 d1 d2 rest Hs1 Hd) as (h2 & Hrun2 & Hx2 & Hf2).
  eexists. exists h1. eexists. exists h2.
  split; [exact Hrun1|]. split; [exact Hrun2|].
  assert (H2 : h2 x = shifted (shifted (h x) inner d2) inner d2)
    by (rewrite Hx2, Hx1; reflexivity).
  split; [exact H2|]. split; [|split].
  - intros k Hk. rewrite H2. unfold shifted. cbn [data].
    rewrite imap_imap. now apply nth_imap.
  - rewrite Hx2. unfold shifted at 1. cbn [shape data]. rewrite Hx1. reflexivity.
  - intros y Hy. rewrite Hf2, Hf1 by assumption. reflexivity.
Qed.

(** ** The bytes [deprocess_image] returns *)

Lemma to_uint8_range (a : fval) : (0 <= to_uint8 a <= 255)%Z.
Proof.
  destruct a as [q| | |]; cbn [to_uint8]; try lia.
  pose proof (Z.mod_pos_bound (Z.quot (Qnum q) (Zpos (Qden q))) 256 ltac:(lia)).
  lia.
Qed.

Lemma Qfloor_div (q : Q) : Qfloor q = (Qnum q / Zpos (Qden q))%Z.
Proof. destruct q as [n d]. reflexivity. Qed.

(** Clipping to 0..255 and casting is flooring and clamping: the cast never
    wraps around. *)
Lemma to_uint8_fclip (q : Q) :
  to_uint8 (fclip 0 255 (Fin q)) = Z.max 0 (Z.min 255 (Qfloor q)).
Proof.
  unfold fclip.
  destruct (Qlt_le_dec q 0) as [Hlo | Hlo].
  - assert (Hf : (Qfloor q < 0)%Z).
    { apply Z.lt_nge. intros Hge.
      assert (H0 : 0 <= q).
      { eapply Qle_trans; [|apply Qfloor_le].
        change 0 with (inject_Z 0). now rewrite <- Zle_Qle. }
      lra. }
    cbn. lia.
  - destruct (Qlt_le_dec 255 q) as [Hhi | Hhi].
    + assert (Hf : (255 <= Qfloor q)%Z).
      { change 255%Z with (Qfloor 255). apply Qfloor_resp_le. lra. }
      cbn. lia.
    + assert (H0 : (0 <= Qfloor q)%Z)
        by (change 0%Z with (Qfloor 0); now apply Qfloor_resp_le).
      assert (H1 : (Qfloor q <= 255)%Z)
        by (change 255%Z with (Qfloor 255); now apply Qfloor_resp_le).
      cbn [to_uint8]. rewrite Qfloor_div in *.
      assert (Hn : (0 <= Qnum q)%Z).
      { unfold Qle in Hlo. cbn in Hlo. lia. }
      rewrite Z.quot_div_nonneg by lia.
      rewrite Z.mod_small by lia. lia.
Qed.

(** X5.  The array [deprocess_image] returns has the shape of its argument
    and one byte per element, each between 0 and 255.  The byte at an
    offset is computed from the shifted element at the mirrored offset: a
    finite one is floored and clamped to 0..255 (the cast to [uint8] after
    the clipping never wraps around), plus infinity gives 255 and minus
    infinity 0. *)
Theorem deprocess_image_returns_clamped_bytes
  (h : heap) (x : ref) (d0 d1 d2 : nat) (rest : list nat) :
  shape (h x) = d0 :: d1 :: d2 :: rest -> (3 <= d2)%nat ->
  let inner := numel rest in
  exists out h',
    deprocess_image x h = (Returns out, h') /\
    bshape out = shape (h x) /\
    length (bytes out) = length (data (h x)) /\
    Forall (fun b => (0 <= b <= 255)%Z) (bytes out) /\
    (forall k, (k < length (data (h x)))%nat ->
       let v := nth (mirror inner d2 k) (data (h' x)) (Fin 0) in
       nth k (bytes out) 0%Z = to_uint8 (fclip 0 255 v) /\
       (forall q, v = Fin q ->
          nth k (bytes out) 0%Z = Z.max 0 (Z.min 255 (Qfloor q))) /\
       (v = PInf -> nth k (bytes out) 0%Z = 255%Z) /\
       (v = NInf -> nth k (bytes out) 0%Z = 0%Z)).
Proof.
  intros Hs Hd inner.
  destruct (deprocess_image_run h x d0 d1 d2 rest Hs Hd) as (h' & Hrun & Hx & _).
  eexists. exists h'. split; [exact Hrun|].
  cbn [np.astype_uint8 np.clip bshape bytes shape data].
  split; [reflexivity|]. split; [|split].
  - unfold shifted. cbn [data].
    now rewrite !length_map, length_reverse_axis, length_imap.
  - apply Forall_map, Forall_forall. intros a _. apply to_uint8_range.
  - intros k Hk. cbv zeta.
    set (v := nth (mirror inner d2 k) (data (h' x)) (Fin 0)).
    assert (Hbyte : nth k (map to_uint8
                            (map (fclip 0 255)
                               (reverse_axis (numel rest) d2
                                  (data (shifted (h x) (numel rest) d2))))) 0%Z
                    = to_uint8 (fclip 0 255 v)).
    { unfold shifted. cbn [data].
      rewrite (nth_indep _ 0%Z (to_uint8 (fclip 0 255 (Fin 0))))
        by (rewrite !length_map, length_reverse_axis, length_imap; exact Hk).
      rewrite (map_nth to_uint8), (map_nth (fclip 0 255)).
      rewrite nth_reverse_axis by (rewrite length_imap; exact Hk).
      unfold v, inner. rewrite Hx. reflexivity. }
    split; [exact Hbyte|]. rewrite Hbyte. split; [|split].
    + intros q ->. apply to_uint8_fclip.
    + intros ->. reflexivity.
    + intros ->. reflexivity.
Qed.

(** ** Shapes that [style_cost] rejects *)

Lemma current_style_cost_batch (a_S a_G : Tensor) (m h w c : nat) :
  shape a_G = [m; h; w; c] -> well_formed a_G ->
  m <> 1%nat -> (0 < h * w * c)%nat ->
  current_style_cost a_S a_G = Raises InvalidArgumentError.
Proof.
  intros Hs Hw Hm Hpos. unfold current_style_cost, tf.get_shape4.
  rewrite Hs. cbn [bind].
  unfold tf.reshape at 1.
  destruct (Nat.eqb (numel [(h * w)%nat; c]) (length (data a_S)));
    [|reflexivity].
  cbn [bind]. unfold tf.transpose at 1. cbn [shape bind].
  unfold tf.reshape.
  assert (Hne : Nat.eqb (numel [(h * w)%nat; c]) (length (data a_G)) = false).
  { apply Nat.eqb_neq. unfold well_formed in Hw. rewrite Hs in Hw.
    rewrite Hw. cbn [numel fold_right].
    destruct m as [|[|m]]; [lia | congruence | nia]. }
  rewrite Hne. reflexivity.
Qed.

(** X6.  [style_cost] serves one picture at a time: the batch size [m] it
    unpacks is never used, and the generated activations are reshaped to
    [n_H * n_W] rows whatever it is.  On a batch of any other size (with
    non-empty maps) the first reshape of the generated activations fails
    and [style_cost] raises [InvalidArgumentError]. *)
Theorem style_cost_needs_a_batch_of_one
  (B : Backend) (style_image generated_image : Tensor) (m h w c : nat) :
  let a_G := layer_output B block1_conv1 generated_image in
  shape a_G = [m; h; w; c] -> well_formed a_G ->
  m <> 1%nat -> (0 < h * w * c)%nat ->
  style_cost B style_image generated_image = Raises InvalidArgumentError.
Proof.
  intros a_G Hs Hw Hm Hpos.
  unfold style_cost, style_models, style_layers. cbn [map style_loop].
  unfold style_round at 1.
  now rewrite (current_style_cost_batch _ _ m h w c Hs Hw Hm Hpos).
Qed.

Lemma current_style_cost_data (a_S a_S' a_G : Tensor) :
  data a_S = data a_S' ->
  current_style_cost a_S a_G = current_style_cost a_S' a_G.
Proof.
  intros Hd. unfold current_style_cost, tf.reshape. now rewrite Hd.
Qed.

(** X7.  [style_cost] never consults the shape of the style activations:
    they are reshaped with the dimensions of the generated ones.  Two style
    pictures whose activations hold the same elements at every style layer,
    under whatever shapes, give the same cost or the same exception. *)
Theorem style_cost_reads_style_elements_only
  (B : Backend) (style_image style_image' generated_image : Tensor) :
  (forall l, In l style_layers ->
     data (layer_output B l style_image) = data (layer_output B l style_image')) ->
  style_cost B style_image generated_image
  = style_cost B style_image' generated_image.
Proof.
  intros H. unfold style_cost, style_models, style_layers in *.
  cbn [map style_loop]. unfold style_round.
  rewrite (current_style_cost_data _ _ _ (H block1_conv1 ltac:(simpl; tauto))).
  rewrite (current_style_cost_data _ _ _ (H block2_conv1 ltac:(simpl; tauto))).
  rewrite (current_style_cost_data _ _ _ (H block3_conv1 ltac:(simpl; tauto))).
  rewrite (current_style_cost_data _ _ _ (H block4_conv1 ltac:(simpl; tauto))).
  rewrite (current_style_cost_data _ _ _ (H block5_conv1 ltac:(simpl; tauto))).
  reflexivity.
Qed.

(** X8.  On activation maps of matching shapes [style_cost] does not tell
    the style picture from the generated one: swapping them gives the same
    value. *)
Theorem style_cost_symmetric
  (B : Backend) (dims : layer -> nat * nat * nat)
  (style_image generated_image : Tensor) :
  (forall l, In l style_layers ->
     activation_map (layer_output B l style_image) (dims l) /\
     activation_map (layer_output B l generated_image) (dims l)) ->
  style_cost B style_image generated_image
  = style_cost B generated_image style_image.
Proof.
  intros H.
  rewrite (style_cost_value B dims style_image generated_image H).
  rewrite (style_cost_value B dims generated_image style_image)
    by (intros l Hl; destruct (H l Hl); now split).
  f_equal. f_equal. unfold style_cost_terms. apply map_ext. intros [l wt].
  cbn [fst snd]. destruct (dims l) as [[h w] c].
  unfold layer_cost. now rewrite msd_sym.
Qed.

(** ** The exceptions of [style_cost] *)

Lemma get_shape4_raises (t : Tensor) (e : exn) :
  tf.get_shape4 t = Raises e -> e = ValueError.
Proof.
  unfold tf.get_shape4.
  destruct (shape t) as [|? [|? [|? [|? [|? ?]]]]]; congruence.
Qed.

Lemma reshape_raises (t : Tensor) (sh : list nat) (e : exn) :
  tf.reshape t sh = Raises e -> e = InvalidArgumentError.
Proof. unfold tf.reshape. destruct (Nat.eqb _ _); congruence. Qed.

Lemma transpose_raises (t : Tensor) (e : exn) :
  tf.transpose t = Raises e -> e = InvalidArgumentError.
Proof.
  unfold tf.transpose. destruct (shape t) as [|? [|? [|? ?]]]; congruence.
Qed.

Lemma matmul_raises (a b : Tensor) (e : exn) :
  tf.matmul a b = Raises e -> e = InvalidArgumentError.
Proof.
  unfold tf.matmul.
  destruct (shape a) as [|? [|? [|? ?]]]; try congruence;
    destruct (shape b) as [|? [|? [|? ?]]]; try congruence.
  destruct (Nat.eqb _ _); congruence.
Qed.

Lemma subtract_raises (a b : Tensor) (e : exn) :
  tf.subtract a b = Raises e -> e = InvalidArgumentError.
Proof. unfold tf.subtract. destruct (shape_eqb _ _); congruence. Qed.

Lemma gram_matrix_raises (A : Tensor) (e : exn) :
  gram_matrix A = Raises e -> e = InvalidArgumentError.
Proof.
  unfold gram_matrix. destruct (tf.transpose A) as [At|e'] eqn:E; cbn [bind].
  - apply matmul_raises.
  - intros H. apply transpose_raises in E. congruence.
Qed.

(** One statement of a block either raises what the block raises, or
    returns and the rest goes on. *)
Ltac raise_site H lem :=
  match type of H with
  | bind ?r _ = Raises _ =>
      let E := fresh "E" in
      destruct r eqn:E; cbn [bind] in H;
      [| apply lem in E; right; congruence]
  end.

Lemma current_style_cost_raises (a_S a_G : Tensor) (e : exn) :
  current_style_cost a_S a_G = Raises e ->
  e = ValueError \/ e = InvalidArgumentError.
Proof.
  intros H. unfold current_style_cost in H.
  destruct (tf.get_shape4 a_G) as [[[[m h] w] c]|e'] eqn:E0; cbn [bind] in H;
    [| apply get_shape4_raises in E0; left; congruence].
  raise_site H reshape_raises. raise_site H transpose_raises.
  raise_site H reshape_raises. raise_site H transpose_raises.
  raise_site H gram_matrix_raises. raise_site H gram_matrix_raises.
  raise_site H subtract_raises. discriminate H.
Qed.

Lemma style_round_raises (total : fval) (i : nat) (a_S a_G : Tensor) (e : exn) :
  (i < 5)%nat ->
  style_round total i a_S a_G = Raises e ->
  e = ValueError \/ e = InvalidArgumentError.
Proof.
  intros Hi H. unfold style_round in H.
  destruct (current_style_cost a_S a_G) as [cur|e'] eqn:E; cbn [bind] in H.
  - unfold coeff_at, style_coeff in H.
    destruct i as [|[|[|[|[|i]]]]]; cbn in H; try discriminate H. lia.
  - apply current_style_cost_raises in E. destruct E; [left | right]; congruence.
Qed.

(** X9.  The weight looked up in [style_coeff] is always there: there are
    as many weights as style models.  When [style_cost] raises, it is the
    [ValueError] of unpacking a shape that has not four dimensions or the
    [InvalidArgumentError] of a shape check of TensorFlow, never an
    [IndexError]. *)
Theorem style_cost_raises_no_index_error
  (B : Backend) (style_image generated_image : Tensor) (e : exn) :
  style_cost B style_image generated_image = Raises e ->
  e = ValueError \/ e = InvalidArgumentError.
Proof.
  unfold style_cost, style_models, style_layers. cbn [map style_loop].
  intros H.
  repeat match type of H with
  | bind (style_round ?t ?i ?a ?b) _ = Raises _ =>
      let E := fresh "E" in
      destruct (style_round t i a b) eqn:E; cbn [bind] in H;
      [| apply style_round_raises in E; [|lia];
         destruct E; [left | right]; congruence]
  end.
  discriminate H.
Qed.

(** ** Pictures whose activations disagree *)

Lemma current_style_cost_count (a_S a_G : Tensor) (m h w c : nat) :
  shape a_G = [m; h; w; c] ->
  length (data a_S) <> (h * w * c)%nat ->
  current_style_cost a_S a_G = Raises InvalidArgumentError.
Proof.
  intros Hs Hne. unfold current_style_cost, tf.get_shape4.
  rewrite Hs. cbn [bind]. unfold tf.reshape at 1.
  assert (E : Nat.eqb (numel [(h * w)%nat; c]) (length (data a_S)) = false).
  { apply Nat.eqb_neq. cbn [numel fold_right]. lia. }
  rewrite E. reflexivity.
Qed.

Lemma content_cost_self (B : Backend) (c : Tensor) :
  exists v, content_cost B c c = Returns v.
Proof. eexists. now apply content_cost_value. Qed.

(** X10.  [train] checks nothing before its loop.  When the style picture
    yields, at the first style layer, another number of activations than
    the content picture, a call without iterations returns two empty lists
    all the same, and a call with at least one raises
    [InvalidArgumentError] in its first iteration. *)
Theorem train_rejects_unequal_pictures_in_the_loop
  (B : Backend) (load_img : loader)
  (A1 A2 : Type) (content_image : A1) (style_image : A2)
  (alpha beta : fval) (Iterations : Z) (lr : fval) (m h w ch : nat) :
  let c := load_and_process_image load_img CONFIG.CONTENT_IMAGE in
  let s := load_and_process_image load_img CONFIG.STYLE_IMAGE in
  shape (layer_output B block1_conv1 c) = [m; h; w; ch] ->
  length (data (layer_output B block1_conv1 s)) <> (h * w * ch)%nat ->
  ((Iterations <= 0)%Z ->
   train B load_img content_image style_image alpha beta Iterations lr
   = Returns ([], [])) /\
  ((0 < Iterations)%Z ->
   train B load_img content_image style_image alpha beta Iterations lr
   = Raises InvalidArgumentError).
Proof.
  intros c s Hs Hne. split; intros HI.
  - unfold train. destruct Iterations; try lia; reflexivity.
  - unfold train, train_state_after.
    destruct (Z.to_nat Iterations) as [|n] eqn:En; [lia|].
    cbn [seq train_loop]. unfold train_step at 1, train_init at 1.
    cbn [generated_image]. unfold J_total_of.
    destruct (content_cost_self B c) as [v Hv]. fold c. rewrite Hv. cbn [bind].
    unfold style_cost, style_models, style_layers. cbn [map style_loop].
    unfold style_round at 1. fold s.
    now rewrite (current_style_cost_count _ _ m h w ch Hs Hne).
Qed.

(** ** Shorter and longer runs *)

(** X11.  The count of iterations decides only where a run stops and what
    its progress lines say: when a run returns, every shorter run (same
    files, weights and learning rate) returns too, and its history and its
    snapshots are the beginnings of those of the longer run. *)
Theorem train_shorter_run_is_a_prefix
  (B : Backend) (load_img : loader)
  (A1 A2 : Type) (content_image : A1) (style_image : A2)
  (alpha beta : fval) (N M : Z) (lr : fval)
  (imgs : list Tensor) (history : list fval) :
  (N <= M)%Z ->
  train B load_img content_image style_image alpha beta M lr
  = Returns (imgs, history) ->
  train B load_img content_image style_image alpha beta N lr
  = Returns (firstn (ceil_div (Z.to_nat N) checkpoint_interval) imgs,
             firstn (Z.to_nat N) history).
Proof.
  intros Hle. unfold train.
  destruct (train_state_after B load_img alpha beta M lr (Z.to_nat M))
    as [stM|e] eqn:HM; cbn [bind]; [|discriminate].
  intros H. injection H as <- <-.
  destruct (run_prefix B load_img alpha beta lr M (Z.to_nat N) (Z.to_nat M) stM
              ltac:(lia) HM) as (st & Hst & Hc & Hi).
  pose proof (train_loop_same B
                (load_and_process_image load_img CONFIG.CONTENT_IMAGE)
                (load_and_process_image load_img CONFIG.STYLE_IMAGE)
                alpha beta N M (seq 0 (Z.to_nat N))
                (train_init B load_img lr) (train_init B load_img lr)
                ltac:(repeat split)) as Hsame.
  unfold train_state_after in Hst |- *. rewrite Hst in Hsame.
  destruct (train_loop B _ _ alpha beta N (seq 0 (Z.to_nat N)) _) as [stN|e];
    cbn [same_outcome] in Hsame; [|contradiction].
  destruct Hsame as (_ & _ & Ei & Ec). cbn [bind].
  unfold checkpoint_interval. now rewrite Ei, Ec, Hi, Hc.
Qed.

(** ** Progress lines *)

(** X12.  What a run shows: after [n] iterations there are two events per
    checkpoint, a picture and a line.  The picture of checkpoint [k] is the
    generated tensor at the end of iteration [200 k], deprocessed; the line
    names iteration [200 k + 1], the count of iterations the call was given,
    and the three losses iteration [200 k] computed, that is, the losses of
    the tensor before the update that the picture shows. *)
Theorem train_progress_lines
  (B : Backend) (load_img : loader)
  (alpha beta : fval) (Iterations : Z) (lr : fval)
  (n : nat) (st : loop_state B) :
  train_state_after B load_img alpha beta Iterations lr n = Returns st ->
  length (output B st) = (2 * ceil_div n checkpoint_interval)%nat /\
  forall k, (k < ceil_div n checkpoint_interval)%nat ->
    exists st' img Jt Js Jc,
      train_state_after B load_img alpha beta Iterations lr (S (200 * k))
      = Returns st' /\
      display_copy (generated_image B st') = Returns img /\
      loss_record B load_img alpha beta Iterations lr (200 * k)
      = Returns (Z.of_nat (200 * k), Jt, Js, Jc) /\
      nth_error (output B st) (2 * k) = Some (Shown img) /\
      nth_error (output B st) (2 * k + 1)
      = Some (Printed (Z.of_nat (200 * k) + 1) Iterations Jt Js Jc).
Proof.
  unfold checkpoint_interval. intros H.
  split; [now destruct (run_lengths _ _ _ _ _ _ _ _ H) as (_ & _ & Ho)|].
  revert st H. induction n as [|n IH]; intros st H k Hk.
  - unfold ceil_div in Hk. cbn in Hk. lia.
  - destruct (state_after_succ_inv _ _ _ _ _ _ _ _ H) as (st0 & H0 & Hstep).
    destruct (run_lengths _ _ _ _ _ _ _ _ H0) as (_ & _ & Ho).
    destruct (train_step_inv _ _ _ _ _ _ _ _ _ Hstep)
      as (Jt & Js & Jc & HJ & _ & _ & Hrest).
    rewrite ceil_div_succ in Hk.
    destruct (Nat.eqb_spec (n mod 200) 0) as [E | E].
    + destruct Hrest as (img & Himg & _ & Ho').
      destruct (Nat.lt_ge_cases k (ceil_div n 200)) as [Hlt | Hge].
      * destruct (IH st0 H0 k Hlt) as (st' & img' & Jt' & Js' & Jc' & P1 & P2 & P3 & P4 & P5).
        exists st', img', Jt', Js', Jc'.
        split; [exact P1|]. split; [exact P2|]. split; [exact P3|].
        rewrite Ho'. rewrite !nth_error_app1 by lia. now split.
      * assert (k = ceil_div n 200) by lia. subst k.
        rewrite (ceil_div_checkpoint n E).
        exists st, img, Jt, Js, Jc.
        split; [exact H|]. split; [exact Himg|]. split.
        -- unfold loss_record. rewrite H0. cbn [bind]. now rewrite HJ.
        -- rewrite Ho'. rewrite !nth_error_app2 by lia.
           replace (2 * ceil_div n 200 - length (output B st0))%nat with 0%nat by lia.
           replace (2 * ceil_div n 200 + 1 - length (output B st0))%nat with 1%nat by lia.
           split; reflexivity.
    + destruct Hrest as (_ & Ho').
      destruct (IH st0 H0 k ltac:(lia)) as (st' & img' & Jt' & Js' & Jc' & P).
      exists st', img', Jt', Js', Jc'. now rewrite Ho'.
Qed.

(** ** Shapes of the snapshots *)

Lemma run_shapes (B : Backend) (load_img : loader)
  (alpha beta : fval) (Iterations : Z) (lr : fval) (n : nat) (st : loop_state B) :
  optimizer_keeps_shape B ->
  train_state_after B load_img alpha beta Iterations lr n = Returns st ->
  let sh := shape (load_and_process_image load_img CONFIG.CONTENT_IMAGE) in
  shape (generated_image B st) = sh /\
  Forall (fun t => shape t = sh) (generated_images B st).
Proof.
  intros Hopt. revert st. induction n as [|n IH]; intros st H sh.
  - injection H as <-. cbn. split; [reflexivity | constructor].
  - destruct (state_after_succ_inv _ _ _ _ _ _ _ _ H) as (st0 & H0 & Hstep).
    destruct (IH st0 H0) as (Hg & Hall).
    destruct (train_step_inv _ _ _ _ _ _ _ _ _ Hstep)
      as (Jt & Js & Jc & _ & Hgen & _ & Hrest).
    assert (Hg' : shape (generated_image B st) = sh)
      by (rewrite Hgen, Hopt; exact Hg).
    split; [exact Hg'|].
    destruct (Nat.eqb (n mod 200) 0).
    + destruct Hrest as (img & _ & Hi' & _). rewrite Hi'.
      apply Forall_app. split; [exact Hall | now constructor].
    + destruct Hrest as (Hi' & _). now rewrite Hi'.
Qed.

(** X13.  With an optimiser that updates the variable elementwise, every
    snapshot a run returns is a batch of one picture of the size of the
    content picture, with three channels, whatever the network yields. *)
Theorem train_snapshots_have_the_content_shape
  (B : Backend) (load_img : loader)
  (A1 A2 : Type) (content_image : A1) (style_image : A2)
  (alpha beta : fval) (Iterations : Z) (lr : fval)
  (imgs : list Tensor) (history : list fval) :
  optimizer_keeps_shape B ->
  train B load_img content_image style_image alpha beta Iterations lr
  = Returns (imgs, history) ->
  let p := load_img CONFIG.CONTENT_IMAGE in
  Forall (fun t => shape t = [1%nat; pic_height p; pic_width p; 3%nat]) imgs.
Proof.
  intros Hopt. unfold train.
  destruct (train_state_after B load_img alpha beta Iterations lr
              (Z.to_nat Iterations)) as [st|e] eqn:Hst; cbn [bind]; [|discriminate].
  intros H. injection H as <- <-. cbv zeta.
  exact (proj2 (run_shapes B load_img alpha beta Iterations lr _ st Hopt Hst)).
Qed.

(** ** The first loss *)

Lemma content_cost_self_zero (B : Backend) (c : Tensor) :
  all_finite (content_model B c) -> (0 < length (data (content_model B c)))%nat ->
  content_cost B c c = Returns (Fin 0).
Proof.
  intros Hfin Hpos. rewrite content_cost_value by reflexivity.
  unfold Spec.content_loss. rewrite msd_self_zero by assumption.
  now rewrite fmul_constant_zero by lra.
Qed.

(** X14.  The generated picture starts as the content picture, so the first
    iteration finds no content cost at all: on finite content activations
    the first entry of the history is [alpha * 0 + beta * J_style], with
    the style cost of the content picture. *)
Theorem train_first_loss_is_the_style_part
  (B : Backend) (load_img : loader)
  (A1 A2 : Type) (content_image : A1) (style_image : A2)
  (alpha beta : fval) (Iterations : Z) (lr : fval)
  (imgs : list Tensor) (history : list fval) :
  let c := load_and_process_image load_img CONFIG.CONTENT_IMAGE in
  let s := load_and_process_image load_img CONFIG.STYLE_IMAGE in
  all_finite (content_model B c) ->
  (0 < length (data (content_model B c)))%nat ->
  (0 < Iterations)%Z ->
  train B load_img content_image style_image alpha beta Iterations lr
  = Returns (imgs, history) ->
  exists J_style,
    style_cost B s c = Returns J_style /\
    hd_error history = Some (fadd (fmul alpha (Fin 0)) (fmul beta J_style)).
Proof.
  intros c s Hfin Hpos HI. unfold train.
  destruct (train_state_after B load_img alpha beta Iterations lr
              (Z.to_nat Iterations)) as [stM|e] eqn:HM; cbn [bind]; [|discriminate].
  intros H. injection H as _ <-.
  destruct (run_prefix B load_img alpha beta lr Iterations 1 (Z.to_nat Iterations)
              stM ltac:(lia) HM) as (st1 & H1 & Hc & _).
  destruct (state_after_succ_inv _ _ _ _ _ _ _ _ H1) as (st0 & H0 & Hstep).
  injection H0 as <-.
  destruct (train_step_inv _ _ _ _ _ _ _ _ _ Hstep)
    as (Jt & Js & Jc & HJ & _ & Hc' & _).
  cbn [train_init generated_image costs app] in HJ, Hc'.
  unfold J_total_of in HJ. fold c s in HJ.
  rewrite (content_cost_self_zero B c Hfin Hpos) in HJ. cbn [bind] in HJ.
  destruct (style_cost B s c) as [J_style|e]; cbn [bind] in HJ; [|discriminate].
  exists J_style. split; [reflexivity|].
  assert (EJ : Jt = fadd (fmul alpha (Fin 0)) (fmul beta J_style)) by congruence.
  rewrite Hc' in Hc. destruct (costs B stM) as [|a l]; cbn in Hc; [discriminate|].
  cbn. congruence.
Qed.

(** ** What [load_and_process_image] returns *)

Lemma sub_mean_finite (z : Z) (m : Q) :
  (0 <= z <= 255)%Z -> 0 <= m -> m <= 256 ->
  is_finite (fsub (of_Z z) (fin m)) = true.
Proof.
  intros Hz Hlo Hhi.
  destruct (fin_byte_range m Hlo Hhi) as (r & -> & Lr & Ur).
  unfold of_Z. rewrite fsub_Fin, fin_in_range; [reflexivity|].
  assert (L : 0 <= z # 1) by (unfold Qle; cbn; lia).
  assert (U : z # 1 <= 255) by (unfold Qle; cbn; lia).
  apply Qabs_Qle_condition. split; lra.
Qed.

Lemma sub_means_finite (inner d k : nat) (z : Z) :
  (0 <= z <= 255)%Z -> is_finite (sub_means inner d k (of_Z z)) = true.
Proof.
  intros Hz. unfold sub_means.
  destruct (axis_pos inner d k) as [|[|[|n]]]; try reflexivity;
    apply sub_mean_finite; try assumption; lra.
Qed.

(** X15.  [load_and_process_image] returns a batch of one: an array of
    shape (1, height, width, 3) with one element per byte of the picture.
    For a picture of height * width * 3 bytes the array is well-formed and
    every element is a number. *)
Theorem load_and_process_image_returns_a_batch_of_one
  (load_img : loader) (image_path : string) :
  let p := load_img image_path in
  let t := load_and_process_image load_img image_path in
  shape t = [1%nat; pic_height p; pic_width p; 3%nat] /\
  length (data t) = length (pic_bytes p) /\
  (valid_picture p -> well_formed t /\ all_finite t).
Proof.
  intros p t.
  assert (Hdata : data t
                  = imap (sub_means 1 3) (reverse_axis 1 3 (map of_Z (pic_bytes p)))).
  { unfold t, load_and_process_image, np.expand_dims, preprocess_input, img_to_array.
    cbn [shape data last]. fold p. now rewrite three_subtractions. }
  assert (Hlen : length (data t) = length (pic_bytes p))
    by (now rewrite Hdata, length_imap, length_reverse_axis, length_map).
  split; [reflexivity|]. split; [exact Hlen|].
  intros [Hbytes Hrange]. split.
  - unfold well_formed. rewrite Hlen, Hbytes.
    unfold t, load_and_process_image, np.expand_dims, preprocess_input, img_to_array.
    cbn [shape numel fold_right]. fold p. lia.
  - unfold all_finite. apply Forall_nth. intros i d Hi.
    rewrite (nth_indep _ d (Fin 0)) by exact Hi.
    rewrite Hdata in Hi |- *. rewrite length_imap in Hi.
    rewrite nth_imap by exact Hi.
    rewrite length_reverse_axis in Hi. rewrite nth_reverse_axis by exact Hi.
    change (Fin 0) with (of_Z 0). rewrite (map_nth of_Z).
    apply sub_means_finite.
    destruct (nth_in_or_default (mirror 1 3 i) (pic_bytes p) 0%Z) as [Hin | ->];
      [|lia].
    rewrite Forall_forall in Hrange. now apply Hrange.
Qed.

(** ** Values that are not numbers *)

Lemma fold_fadd_NaN (l : list fval) : fold_left fadd l NaN = NaN.
Proof. induction l as [|a l IH]; [reflexivity | exact IH]. Qed.

Lemma fadd_NaN_r (a : fval) : fadd a NaN = NaN.
Proof. now destruct a. Qed.

Lemma fsum_NaN (l : list fval) : In NaN l -> fsum l = NaN.
Proof.
  unfold fsum. generalize (Fin 0).
  induction l as [|a l IH]; intros acc Hin; [destruct Hin|].
  cbn [fold_left]. destruct Hin as [-> | Hin].
  - rewrite fadd_NaN_r. apply fold_fadd_NaN.
  - now apply IH.
Qed.

Lemma in_combine_NaN (x y : list fval) :
  length x = length y -> In NaN y ->
  In NaN (map (fun p => fsquare (fsub (fst p) (snd p))) (combine x y)).
Proof.
  revert x. induction y as [|b y IH]; intros [|a x] Hlen Hin;
    cbn in Hlen; try discriminate; [destruct Hin|].
  cbn [combine map fst snd]. destruct Hin as [-> | Hin].
  - left. now destruct a.
  - right. apply IH; [lia | exact Hin].
Qed.

(** X16.  Nothing in the losses looks for values that are not numbers.
    When the content activations of the generated picture hold a NaN,
    [content_cost] returns NaN, and so is the total loss of the iteration,
    whatever the weights and the style cost. *)
Theorem content_cost_propagates_nan
  (B : Backend) (content_image style_image generated_image : Tensor)
  (alpha beta : fval) :
  let a_C := content_model B content_image in
  let a_G := content_model B generated_image in
  shape a_C = shape a_G -> length (data a_C) = length (data a_G) ->
  In NaN (data a_G) ->
  content_cost B content_image generated_image = Returns NaN /\
  forall J_style,
    style_cost B style_image generated_image = Returns J_style ->
    J_total_of B content_image style_image alpha beta generated_image
    = Returns (NaN, J_style, NaN).
Proof.
  intros a_C a_G Hs Hlen Hin.
  assert (Hc : content_cost B content_image generated_image = Returns NaN).
  { rewrite content_cost_value by exact Hs.
    unfold Spec.content_loss, Spec.mean_squared_difference.
    fold a_C a_G. rewrite (fsum_NaN _ (in_combine_NaN _ _ Hlen Hin)).
    cbn [fdiv]. now destruct (fin 0.05). }
  split; [exact Hc|]. intros J_style HJ. unfold J_total_of.
  rewrite Hc, HJ. cbn [bind]. now destruct alpha.
Qed.

End Facts.

(** * The script on small inputs, with rounding *)

(** The statements about the losses hold with rounding; they are run here
    in the format of step 1/1024. *)

Section RoundedExamples.

#[local] Instance fixed_point : Rounding := {|
  round := to_grid;
  overflows := fun _ => false;
  round_compat := to_grid_compat;
  round_zero := to_grid_zero;
  round_monotone := to_grid_monotone;
  round_opp := to_grid_opp;
  overflows_compat := fun p q _ => eq_refl;
  overflows_opp := fun q => eq_refl;
  overflows_byte := fun q _ => eq_refl;
  round_byte := eq_refl;
  round_resolves := eq_refl
|}.

Lemma gram_matrix_times_transpose_witness :
  exists G,
    gram_matrix (mkTensor [2; 3]%nat [Fin 1; Fin 2; Fin 3; Fin 4; Fin 5; Fin 6])
    = Returns G /\
    get2 2 (data G) 0 1 = get2 2 (data G) 1 0 /\
    nonneg (get2 2 (data G) 1 1).
Proof.
  destruct (gram_matrix_times_transpose 2 3 [Fin 1; Fin 2; Fin 3; Fin 4; Fin 5; Fin 6])
    as (G & HG & _ & _ & Hsym & _ & Hdiag).
  exists G. split; [exact HG|]. split.
  - apply Hsym; lia.
  - apply Hdiag; [repeat constructor | lia].
Defined.

Lemma content_cost_mean_squared_difference_witness :
  let x := load_and_process_image Toy.files CONFIG.CONTENT_IMAGE in
  let y := load_and_process_image Toy.files CONFIG.STYLE_IMAGE in
  content_cost Toy.flat x y = content_cost Toy.flat y x /\
  (exists v, content_cost Toy.flat x y = Returns v /\ nonneg v) /\
  content_cost Toy.flat x x = Returns (Fin 0).
Proof.
  intros x y.
  destruct (content_cost_mean_squared_difference Toy.flat x y eq_refl)
    as (_ & Hsym & _ & Hnn).
  destruct (content_cost_mean_squared_difference Toy.flat x x eq_refl)
    as (_ & _ & Hzero & _).
  split; [exact Hsym|]. split.
  - apply Hnn; [repeat constructor | repeat constructor | reflexivity | simpl; lia].
  - apply Hzero; [repeat constructor | simpl; lia].
Defined.

Lemma losses_zero_and_nonnegative_witness :
  let c := load_and_process_image Toy.files CONFIG.CONTENT_IMAGE in
  let s := load_and_process_image Toy.files CONFIG.STYLE_IMAGE in
  style_cost Toy.flat c c = Returns (Fin 0) /\
  (exists v, style_cost Toy.flat s c = Returns v /\ nonneg v) /\
  (exists v, style_cost Toy.flat s c = Returns v /\ not_negative v) /\
  (exists v, content_cost Toy.flat s c = Returns v /\ nonneg v).
Proof.
  intros c s.
  destruct (losses_zero_and_nonnegative Toy.flat (fun _ => (1, 1, 3)%nat) s c c)
    as (Hzero & _ & _).
  destruct (losses_zero_and_nonnegative Toy.flat (fun _ => (1, 1, 3)%nat) s s c)
    as (_ & Hstyle & Hany & Hcontent).
  assert (Hshape : forall t l, activation_map (layer_output Toy.flat l t)
                                              (1, 1, 3)%nat)
    by (intros t l; split; reflexivity).
  assert (Hgram : forall t, t = c \/ t = s ->
                    forall l, gram_in_range (layer_output Toy.flat l t)
                                            (1, 1, 3)%nat)
    by (intros t [-> | ->] l; vm_compute; repeat constructor).
  split; [|split; [|split]].
  - apply Hzero. intros l _. split; [reflexivity|]. split; [apply Hshape|].
    split; [apply Hgram; now left | simpl; lia].
  - apply Hstyle. intros l _. split; [apply Hshape|]. split; [apply Hshape|].
    split; [apply Hgram; now right|]. split; [apply Hgram; now left|].
    split; [|simpl; lia].
    eexists. split; [vm_compute; reflexivity | reflexivity].
  - apply Hany. intros l _. split; apply Hshape.
  - apply Hcontent; [reflexivity | repeat constructor | repeat constructor
                    | reflexivity | simpl; lia].
Defined.

End RoundedExamples.

(** * The script on large values, in the range of float32 *)

Section RangeExamples.

(** Exact results as far as float32 reaches, infinities beyond. *)
#[local] Instance float32_range : Rounding := {|
  round := fun q => q;
  overflows := beyond_float32;
  round_compat := fun p q H => H;
  round_zero := Qeq_refl 0;
  round_monotone := fun p q H => H;
  round_opp := fun q => Qeq_refl (- q);
  overflows_compat := beyond_float32_compat;
  overflows_opp := beyond_float32_opp;
  overflows_byte := beyond_float32_byte;
  round_byte := Qeq_refl 256;
  round_resolves := eq_refl
|}.

(** C7, as stated, fails.  The three activations of this map are the
    finite number 1e20 at every layer.  The entries of its Gram matrix are
    1e40, beyond the range of float32, so they are plus infinity; their
    difference with themselves is NaN, and so is the style cost of the map
    against itself: not zero, and not a value that is at least zero. *)
Lemma style_cost_of_identical_maps_is_nan :
  let big := Fin (inject_Z (10 ^ 20)) in
  let X := mkTensor [1; 1; 1; 3]%nat [big; big; big] in
  all_finite X /\
  (forall l, layer_output Toy.flat l X = X) /\
  style_cost Toy.flat X X = Returns NaN /\
  Returns NaN <> Returns (Fin 0) /\
  ~ nonneg NaN.
Proof.
  intros big X. split; [repeat constructor|]. split; [reflexivity|].
  split; [vm_compute; reflexivity|]. split; [discriminate|].
  intros H. exact H.
Qed.

(** [content_cost] of the same map against zeros overflows to plus
    infinity, which is not below zero. *)
Lemma content_cost_overflows_to_infinity :
  let big := Fin (inject_Z (10 ^ 20)) in
  let X := mkTensor [1; 1; 1; 3]%nat [big; big; big] in
  let O := mkTensor [1; 1; 1; 3]%nat [Fin 0; Fin 0; Fin 0] in
  content_cost Toy.flat X O = Returns PInf /\
  content_cost Toy.flat X X = Returns (Fin 0).
Proof. intros big X O. split; vm_compute; reflexivity. Qed.

End RangeExamples.

(** * The script on small inputs, in exact arithmetic *)

Section Examples.

#[local] Existing Instance exact_arithmetic.
#[local] Existing Instance exact_arithmetic_exact.

Lemma toy_feature_shapes (B : Backend) :
  layer_output B = Toy.features ->
  fixed_feature_shapes B (fun _ => (1, 1, 3)%nat).
Proof. intros E l x. rewrite E. split; reflexivity. Qed.

Lemma not_finite_NaN (sh : list nat) (rest : list fval) :
  ~ all_finite (mkTensor sh (NaN :: rest)).
Proof. intros H. inversion H. discriminate. Qed.

Lemma style_cost_weighted_gram_differences_witness :
  let s := load_and_process_image Toy.files CONFIG.STYLE_IMAGE in
  let g := load_and_process_image Toy.files CONFIG.CONTENT_IMAGE in
  style_cost Toy.flat s g
  = Returns (Spec.style_loss
      (style_inputs Toy.flat (fun _ => (1, 1, 3)%nat) s g)).
Proof.
  intros s g.
  destruct (style_cost_weighted_gram_differences Toy.flat
              (fun _ => (1, 1, 3)%nat) s g) as [_ Hexact].
  - intros l _. split; split; reflexivity.
  - destruct (Hexact exact_arithmetic_exact) as [_ Hspec]. exact Hspec.
Defined.

Lemma train_history_and_snapshots_witness :
  exists imgs history,
    train Toy.flat Toy.files tt tt (Fin 1) (Fin 1) 401 (Fin 1)
    = Returns (imgs, history) /\
    length history = 401%nat /\ length imgs = 3%nat.
Proof.
  destruct (train_history_and_snapshots Toy.flat Toy.files (fun _ => (1, 1, 3)%nat)
              unit unit tt tt (Fin 1) (Fin 1) 401 (Fin 1))
    as (imgs & history & Hrun & Hlen & Himgs & _).
  - apply toy_feature_shapes. reflexivity.
  - intros o grads var. reflexivity.
  - exists imgs, history. split; [exact Hrun|]. split; [exact Hlen | exact Himgs].
Defined.

Lemma poisoning_feature_shapes :
  fixed_feature_shapes Toy.poisoning (fun _ => (1, 1, 3)%nat).
Proof. intros l x. split; reflexivity. Qed.

Lemma poisoning_update_spreads : update_spreads_non_finite Toy.poisoning.
Proof.
  intros o f var Hpre HF.
  unfold all_finite in *.
  cbn [Toy.poisoning tape_gradient apply_gradients Toy.fill Toy.descend
       snd data] in *.
  destruct (data var) as [|v l]; cbn [map combine] in *.
  - destruct Hpre as [H | H]; apply H; constructor.
  - inversion HF as [|x y Hx _]. cbn [fst snd] in Hx.
    destruct o, v; discriminate Hx.
Qed.

Lemma poisoning_network_spreads : network_spreads_non_finite Toy.poisoning.
Proof.
  intros x Hx HF. apply not_all_finite in Hx. apply fsum_not_finite in Hx.
  unfold all_finite in HF.
  cbn [Toy.poisoning layer_output Toy.pooled data map seq] in HF.
  inversion HF. congruence.
Qed.

Lemma train_runs_through_non_finite_values_witness :
  exists imgs history,
    train Toy.poisoning Toy.files tt tt (Fin 1) (Fin 1) 3 (Fin 1)
    = Returns (imgs, history) /\
    length history = 3%nat /\
    (exists t, nth_error imgs 0 = Some t /\ ~ all_finite t) /\
    (forall i, (0 < i < 3)%nat ->
       exists v, nth_error history i = Some v /\ is_finite v = false).
Proof.
  destruct (train_runs_through_non_finite_values Toy.poisoning Toy.files
              (fun _ => (1, 1, 3)%nat) unit unit tt tt (Fin 1) (Fin 1) 3 (Fin 1) 0
              (mkTensor [1; 1; 1; 3]%nat [NaN; NaN; NaN]))
    as (_ & _ & imgs & history & Hrun & Hlen & _ & Hflow).
  - apply poisoning_feature_shapes.
  - intros o grads var. reflexivity.
  - simpl. lia.
  - vm_compute. reflexivity.
  - apply not_finite_NaN.
  - destruct (Hflow poisoning_update_spreads) as (_ & Hsnap & Hloss).
    exists imgs, history. split; [exact Hrun|]. split; [exact Hlen|]. split.
    + apply (Hsnap 0%nat); [lia | vm_compute; lia].
    + apply Hloss. apply poisoning_network_spreads.
Defined.

Lemma train_ignores_image_arguments_witness :
  train Toy.flat Toy.files CONFIG.CONTENT_IMAGE CONFIG.STYLE_IMAGE
        (Fin 1) (Fin 1) 1 (Fin 1)
  = train Toy.flat Toy.other_files CONFIG.OUTPUT_DIR 7%Z
        (Fin 1) (Fin 1) 1 (Fin 1).
Proof.
  apply train_ignores_image_arguments; reflexivity.
Defined.

Lemma deprocess_image_shifts_its_argument_witness :
  let h : heap := fun _ => mkTensor [1; 1; 3]%nat [Fin 1; Fin 2; Fin 3] in
  exists out h',
    deprocess_image 0%nat h = (Returns out, h') /\
    h' 0%nat = shifted (h 0%nat) 1 3 /\
    h' 0%nat <> h 0%nat.
Proof.
  intros h.
  destruct (deprocess_image_shifts_its_argument h 0%nat 1 1 3 [] eq_refl (le_n 3))
    as (out & h' & Hrun & Hx & _ & _ & _ & Hne).
  exists out, h'. split; [exact Hrun|]. split; [exact Hx|].
  apply (Hne exact_arithmetic_exact 1 [Fin 2; Fin 3]). reflexivity.
Defined.

Lemma deprocess_inverts_preprocess_witness :
  let h : heap := fun _ => load_and_process_image Toy.files CONFIG.STYLE_IMAGE in
  fst (display_image 0%nat h)
  = Returns (mkByteArray [1; 1; 3]%nat [200; 100; 50]%Z).
Proof.
  intros h.
  destruct (deprocess_inverts_preprocess Toy.files CONFIG.STYLE_IMAGE h 0%nat)
    as (_ & Hshown & Hexact).
  - split; [reflexivity|]. repeat constructor; discriminate.
  - rewrite (Hshown eq_refl), (Hexact exact_arithmetic_exact). reflexivity.
Defined.

(** C1, as stated, fails: the entries of the returned history are bare
    numbers.  On a run of two iterations whose losses do not change, the
    two entries are equal, so no reading of an entry can give back the
    records (iteration, J_total, J_style, J_content) of the two
    iterations. *)
Lemma train_history_entries_are_not_records :
  exists imgs history,
    train Toy.flat Toy.files tt tt (Fin 1) (Fin 1) 2 (Fin 1)
    = Returns (imgs, history) /\
    ~ exists decode : fval -> Z * fval * fval * fval,
        map (fun entry => Returns (decode entry)) history
        = [loss_record Toy.flat Toy.files (Fin 1) (Fin 1) 2 (Fin 1) 0;
           loss_record Toy.flat Toy.files (Fin 1) (Fin 1) 2 (Fin 1) 1].
Proof.
  eexists. eexists. split; [vm_compute; reflexivity|].
  intros [decode H].
  assert (E0 : loss_record Toy.flat Toy.files (Fin 1) (Fin 1) 2 (Fin 1) 0
               = Returns (0%Z, Fin (2082295600799 # 253125),
                          Fin (2082295600799 # 253125), Fin 0))
    by (vm_compute; reflexivity).
  assert (E1 : loss_record Toy.flat Toy.files (Fin 1) (Fin 1) 2 (Fin 1) 1
               = Returns (1%Z, Fin (2082295600799 # 253125),
                          Fin (2082295600799 # 253125), Fin 0))
    by (vm_compute; reflexivity).
  rewrite E0, E1 in H. cbn [map] in H.
  injection H as H0 H1. rewrite H0 in H1. discriminate H1.
Qed.

(** C2, as stated, fails: what [train] returns for zero iterations holds no
    tensor at all, the content picture included. *)
Lemma train_zero_iterations_returns_no_tensor :
  exists imgs history,
    train Toy.flat Toy.files tt tt (Fin 1) (Fin 1) 0 (Fin 1)
    = Returns (imgs, history) /\
    imgs = [] /\
    ~ In (load_and_process_image Toy.files CONFIG.CONTENT_IMAGE) imgs.
Proof.
  exists [], []. split; [reflexivity|]. split; [reflexivity|]. intros [].
Qed.

(** C3, as stated, fails: in this run the gradient of the first iteration
    is NaN throughout and the generated tensor becomes NaN, yet [train]
    raises nothing; it goes on through the remaining iterations, whose loss
    is NaN, and returns.  So it does when the loss is NaN by the script's
    own arithmetic, as with an infinite content weight on a zero content
    cost. *)
Lemma train_does_not_signal_divergence :
  (exists g, gradient_at Toy.diverging Toy.files (Fin 1) (Fin 1) 3 (Fin 1) 0
             = Returns g /\ ~ all_finite g) /\
  train Toy.diverging Toy.files tt tt (Fin 1) (Fin 1) 3 (Fin 1)
  = Returns ([mkTensor [1; 1; 1; 3]%nat [NaN; NaN; NaN]],
             [Fin (2082295600799 # 253125); NaN; NaN]) /\
  (forall e, train Toy.diverging Toy.files tt tt (Fin 1) (Fin 1) 3 (Fin 1)
             <> Raises e) /\
  snd_of (train Toy.flat Toy.files tt tt PInf (Fin 1) 3 (Fin 1))
  = Returns [NaN; NaN; NaN].
Proof.
  assert (Hrun : train Toy.diverging Toy.files tt tt (Fin 1) (Fin 1) 3 (Fin 1)
                 = Returns ([mkTensor [1; 1; 1; 3]%nat [NaN; NaN; NaN]],
                            [Fin (2082295600799 # 253125); NaN; NaN]))
    by (vm_compute; reflexivity).
  split; [|split; [|split]].
  - eexists. split; [vm_compute; reflexivity | apply not_finite_NaN].
  - exact Hrun.
  - intros e. rewrite Hrun. discriminate.
  - vm_compute. reflexivity.
Qed.

(** ** The further properties, run *)

Lemma deprocess_image_needs_three_axes_witness :
  let h : heap := fun _ => mkTensor [2; 2]%nat [Fin 1; Fin 2; Fin 3; Fin 4] in
  deprocess_image 0%nat h = (Raises IndexError, h).
Proof.
  intros h. apply (deprocess_image_needs_three_axes h 0%nat). simpl. lia.
Defined.

Lemma deprocess_image_fails_after_writing_witness :
  let h : heap := fun _ => mkTensor [1; 1; 2]%nat [Fin 1; Fin 2] in
  exists h',
    deprocess_image 0%nat h = (Raises IndexError, h') /\
    h' 0%nat = shifted (h 0%nat) 1 2 /\
    nth 0 (data (h' 0%nat)) (Fin 0) = fadd (Fin 1) (fin 103.939).
Proof.
  intros h.
  destruct (deprocess_image_fails_after_writing h 0%nat 1 1 2 [] eq_refl (le_n 3))
    as (h' & Hrun & _ & _ & Hw).
  destruct (Hw (Nat.lt_0_succ 1)) as [Hx Hfirst].
  exists h'. split; [exact Hrun|]. split; [exact Hx|].
  apply (Hfirst (Fin 1) [Fin 2]). reflexivity.
Defined.

Lemma display_image_writes_through_the_view_witness :
  let h : heap := fun _ => mkTensor [1; 1; 1; 3]%nat [Fin 1; Fin 2; Fin 3] in
  let h2 : heap := fun _ => mkTensor [2; 1; 1; 3]%nat
                             [Fin 1; Fin 2; Fin 3; Fin 4; Fin 5; Fin 6] in
  display_image 0%nat h2 = (Raises ValueError, h2) /\
  exists out h',
    display_image 0%nat h = (Returns out, h') /\
    h' 0%nat = mkTensor [1; 1; 1; 3]%nat
                 (imap (add_means 1 3) [Fin 1; Fin 2; Fin 3]).
Proof.
  intros h h2. split.
  - apply (display_image_writes_through_the_view h2 0%nat 2 1 1 3 eq_refl).
    discriminate.
  - destruct (display_image_writes_through_the_view h 0%nat 1 1 1 3 eq_refl)
      as [_ Hview].
    destruct (Hview eq_refl (le_n 3)) as (out & h' & Hrun & _ & _ & Hx & _).
    exists out, h'. split; [exact Hrun | exact Hx].
Defined.

Lemma deprocess_image_twice_shifts_twice_witness :
  let h : heap := fun _ => mkTensor [1; 1; 3]%nat [Fin 1; Fin 2; Fin 3] in
  exists out1 h1 out2 h2,
    deprocess_image 0%nat h = (Returns out1, h1) /\
    deprocess_image 0%nat h1 = (Returns out2, h2) /\
    h2 0%nat = shifted (shifted (h 0%nat) 1 3) 1 3.
Proof.
  intros h.
  destruct (deprocess_image_twice_shifts_twice h 0%nat 1 1 3 [] eq_refl (le_n 3))
    as (out1 & h1 & out2 & h2 & H1 & H2 & Hx & _).
  exists out1, h1, out2, h2. split; [exact H1|]. split; [exact H2 | exact Hx].
Defined.

Lemma deprocess_image_returns_clamped_bytes_witness :
  let h : heap := fun _ => mkTensor [1; 1; 3]%nat [Fin (-200); Fin 2; Fin 300] in
  exists out h',
    deprocess_image 0%nat h = (Returns out, h') /\
    bshape out = [1; 1; 3]%nat /\
    Forall (fun b => (0 <= b <= 255)%Z) (bytes out).
Proof.
  intros h.
  destruct (deprocess_image_returns_clamped_bytes h 0%nat 1 1 3 [] eq_refl (le_n 3))
    as (out & h' & Hrun & Hs & _ & Hrange & _).
  exists out, h'. split; [exact Hrun|]. split; [exact Hs | exact Hrange].
Defined.

Lemma style_cost_needs_a_batch_of_one_witness :
  let s := mkTensor [1; 1; 1; 3]%nat [Fin 1; Fin 2; Fin 3] in
  let g := mkTensor [2; 1; 1; 3]%nat [Fin 1; Fin 2; Fin 3; Fin 4; Fin 5; Fin 6] in
  style_cost Toy.transparent s g = Raises InvalidArgumentError.
Proof.
  intros s g.
  apply (style_cost_needs_a_batch_of_one Toy.transparent s g 2 1 1 3);
    [reflexivity | reflexivity | discriminate | simpl; lia].
Defined.

Lemma style_cost_reads_style_elements_only_witness :
  let s := mkTensor [1; 1; 1; 3]%nat [Fin 1; Fin 2; Fin 3] in
  let s' := mkTensor [3; 1; 1; 1]%nat [Fin 1; Fin 2; Fin 3] in
  let g := mkTensor [1; 1; 1; 3]%nat [Fin 4; Fin 5; Fin 6] in
  style_cost Toy.transparent s g = style_cost Toy.transparent s' g.
Proof.
  intros s s' g.
  apply (style_cost_reads_style_elements_only Toy.transparent s s' g).
  intros l _. reflexivity.
Defined.

Lemma style_cost_symmetric_witness :
  let s := load_and_process_image Toy.files CONFIG.STYLE_IMAGE in
  let g := load_and_process_image Toy.files CONFIG.CONTENT_IMAGE in
  style_cost Toy.flat s g = style_cost Toy.flat g s.
Proof.
  intros s g.
  apply (style_cost_symmetric Toy.flat (fun _ => (1, 1, 3)%nat) s g).
  intros l _. split; split; reflexivity.
Defined.

Lemma style_cost_raises_no_index_error_witness :
  let s := mkTensor [1; 1; 1; 3]%nat [Fin 1; Fin 2; Fin 3] in
  let g := mkTensor [3]%nat [Fin 4; Fin 5; Fin 6] in
  exists e,
    style_cost Toy.transparent s g = Raises e /\
    (e = ValueError \/ e = InvalidArgumentError).
Proof.
  intros s g. exists ValueError. split; [reflexivity|].
  apply (style_cost_raises_no_index_error Toy.transparent s g ValueError).
  reflexivity.
Defined.

Lemma train_rejects_unequal_pictures_in_the_loop_witness :
  train Toy.transparent Toy.unequal_files tt tt (Fin 1) (Fin 1) 0 (Fin 1)
  = Returns ([], []) /\
  train Toy.transparent Toy.unequal_files tt tt (Fin 1) (Fin 1) 3 (Fin 1)
  = Raises InvalidArgumentError.
Proof.
  split.
  - apply (train_rejects_unequal_pictures_in_the_loop Toy.transparent
             Toy.unequal_files unit unit tt tt (Fin 1) (Fin 1) 0 (Fin 1) 1 1 1 3);
      [reflexivity | simpl; lia | lia].
  - apply (train_rejects_unequal_pictures_in_the_loop Toy.transparent
             Toy.unequal_files unit unit tt tt (Fin 1) (Fin 1) 3 (Fin 1) 1 1 1 3);
      [reflexivity | simpl; lia | lia].
Defined.

Lemma train_shorter_run_is_a_prefix_witness :
  exists imgs history,
    train Toy.flat Toy.files tt tt (Fin 1) (Fin 1) 3 (Fin 1)
    = Returns (imgs, history) /\
    train Toy.flat Toy.files tt tt (Fin 1) (Fin 1) 1 (Fin 1)
    = Returns (firstn (ceil_div (Z.to_nat 1) checkpoint_interval) imgs,
               firstn (Z.to_nat 1) history).
Proof.
  eexists. eexists. split; [vm_compute; reflexivity|].
  apply (train_shorter_run_is_a_prefix Toy.flat Toy.files unit unit tt tt
           (Fin 1) (Fin 1) 1 3 (Fin 1)); [lia | vm_compute; reflexivity].
Defined.

Lemma train_progress_lines_witness :
  exists st,
    train_state_after Toy.flat Toy.files (Fin 1) (Fin 1) 3 (Fin 1) 1 = Returns st /\
    length (output Toy.flat st) = 2%nat.
Proof.
  eexists. split; [vm_compute; reflexivity|].
  apply (train_progress_lines Toy.flat Toy.files (Fin 1) (Fin 1) 3 (Fin 1) 1).
  vm_compute. reflexivity.
Defined.

Lemma train_snapshots_have_the_content_shape_witness :
  exists imgs history,
    train Toy.flat Toy.files tt tt (Fin 1) (Fin 1) 1 (Fin 1)
    = Returns (imgs, history) /\
    Forall (fun t => shape t = [1; 1; 1; 3]%nat) imgs.
Proof.
  eexists. eexists. split; [vm_compute; reflexivity|].
  apply (train_snapshots_have_the_content_shape Toy.flat Toy.files unit unit tt tt
           (Fin 1) (Fin 1) 1 (Fin 1) _ [Fin (2082295600799 # 253125)]).
  - intros o grads var. reflexivity.
  - vm_compute. reflexivity.
Defined.

Lemma train_first_loss_is_the_style_part_witness :
  exists imgs history J_style,
    train Toy.flat Toy.files tt tt (Fin 1) (Fin 1) 1 (Fin 1)
    = Returns (imgs, history) /\
    style_cost Toy.flat (load_and_process_image Toy.files CONFIG.STYLE_IMAGE)
                        (load_and_process_image Toy.files CONFIG.CONTENT_IMAGE)
    = Returns J_style /\
    hd_error history = Some (fadd (fmul (Fin 1) (Fin 0)) (fmul (Fin 1) J_style)).
Proof.
  assert (Hrun : train Toy.flat Toy.files tt tt (Fin 1) (Fin 1) 1 (Fin 1)
                 = Returns ([mkTensor [1; 1; 1; 3]%nat
                               [Fin (-73939 # 1000); Fin (-96779 # 1000);
                                Fin (-2842 # 25)]],
                            [Fin (2082295600799 # 253125)]))
    by (vm_compute; reflexivity).
  destruct (train_first_loss_is_the_style_part Toy.flat Toy.files unit unit tt tt
              (Fin 1) (Fin 1) 1 (Fin 1) _ _
              ltac:(repeat constructor) ltac:(simpl; lia) ltac:(lia) Hrun)
    as (J_style & Hs & Hhd).
  eexists. eexists. exists J_style. split; [exact Hrun|]. split; [exact Hs | exact Hhd].
Defined.

Lemma load_and_process_image_returns_a_batch_of_one_witness :
  let t := load_and_process_image Toy.files CONFIG.STYLE_IMAGE in
  well_formed t /\ all_finite t.
Proof.
  intros t.
  destruct (load_and_process_image_returns_a_batch_of_one Toy.files
              CONFIG.STYLE_IMAGE) as (_ & _ & Hvalid).
  apply Hvalid. split; [reflexivity|]. repeat constructor; discriminate.
Defined.

Lemma content_cost_propagates_nan_witness :
  let c := mkTensor [1; 1; 1; 3]%nat [Fin 1; Fin 2; Fin 3] in
  let g := mkTensor [1; 1; 1; 3]%nat [Fin 1; NaN; Fin 3] in
  content_cost Toy.flat c g = Returns NaN.
Proof.
  intros c g.
  apply (content_cost_propagates_nan Toy.flat c c g (Fin 1) (Fin 1));
    [reflexivity | reflexivity | right; left; reflexivity].
Defined.

End Examples.
